(** * GitHub repository analyzer: a shallow embedding of [main.py]

    The development follows the source file top-down: Python values
    (byte strings, insertion-ordered dictionaries, exceptions), the
    remote API as an oracle over the request history, the analyzer's
    methods ([_parse_github_url], [get_contents], [get_file_content],
    [analyze_repo] with its inner [process_path]) and [save_analysis].

    Strings are Rocq [string]s, i.e. sequences of bytes holding the UTF-8
    encoding of the Python [str].  Byte-wise lexicographic comparison of
    UTF-8 agrees with Python's code-point comparison of [str]. *)

From Stdlib Require Import String Ascii ZArith List Sorted Permutation Lia.
From Stdlib Require Import DecimalString.
From stdpp Require Import gmap strings list.

Open Scope string_scope.
Open Scope list_scope.

(** ** Python preliminaries *)

Module Py.

(** The newline character, written [\n] in the source. *)
Definition nl : string := String "010" EmptyString.

(** [sep.join(l)]. *)
Fixpoint join (sep : string) (l : list string) : string :=
  match l with
  | [] => ""
  | [x] => x
  | x :: l' => x +:+ sep +:+ join sep l'
  end.

(** [a < b] on [str]. *)
Definition str_lt (a b : string) : bool := String.ltb a b.

(** [a < b] on a pair [(bool, str)]: tuples compare by their first
    differing component, and [False < True]. *)
Definition tuple_lt (a b : bool * string) : bool :=
  if Bool.eqb a.1 b.1 then str_lt a.2 b.2 else negb a.1 && b.1.

(** [sorted(l, key=key)] is a stable sort that only uses [<] on keys.
    The sorted list is determined by these two facts (see
    [sorted_unique] below); it is computed here by stable insertion. *)
Section Sorted.
Context {A K : Type} (lt : K → K → bool) (key : A → K).

Fixpoint insert (x : A) (l : list A) : list A :=
  match l with
  | [] => [x]
  | y :: l' => if lt (key y) (key x) then y :: insert x l' else x :: y :: l'
  end.

Fixpoint sorted (l : list A) : list A :=
  match l with
  | [] => []
  | x :: l' => insert x (sorted l')
  end.
End Sorted.

(** An insertion-ordered [dict] with [str] keys: [d[k] = v] replaces the
    value in place when [k] is present and appends the pair otherwise;
    [d.items()] is the list itself. *)
Definition dict := list (string * string).

Fixpoint setitem (k v : string) (d : dict) : dict :=
  match d with
  | [] => [(k, v)]
  | (k', v') :: d' =>
      if String.eqb k' k then (k, v) :: d' else (k', v') :: setitem k v d'
  end.

Fixpoint getitem (k : string) (d : dict) : option string :=
  match d with
  | [] => None
  | (k', v') :: d' => if String.eqb k' k then Some v' else getitem k d'
  end.

Definition keys (d : dict) : list string := d.*1.

(** Exceptions that reach the code under study.  [HTTPError] is what
    [response.raise_for_status()] raises; [RequestException] stands for
    whatever [requests.get] or [response.json()] raise on their own;
    [ValueError] is raised by the URL parser. *)
Inductive exn :=
| HTTPError (status : Z) (url : string)
| RequestException (msg : string)
| ValueError (msg : string).

(** Results of a call that may raise. *)
Definition result (A : Type) : Type := exn + A.

End Py.

(** ** The [re] module, restricted to the constructs of the two patterns *)

Module Re.

Inductive regex :=
| Lit (s : string)                        (* literal text, escapes resolved *)
| Class (neg : bool) (cs : list ascii)    (* [cs] and [^cs] *)
| PlusClass (neg : bool) (cs : list ascii)(* [cs]+ and [^cs]+, greedy *)
| Opt (r : regex)                         (* r?, greedy; r has no group *)
| Cat (r1 r2 : regex)
| Group (r : regex)                       (* capturing group (r) *)
| Dollar.                                 (* $ *)

Definition in_class (neg : bool) (cs : list ascii) (c : ascii) : bool :=
  xorb neg (existsb (Ascii.eqb c) cs).

Fixpoint strip_prefix (l s : string) : option string :=
  match l, s with
  | EmptyString, _ => Some s
  | String a l', String b s' => if Ascii.eqb a b then strip_prefix l' s' else None
  | String _ _, EmptyString => None
  end.

(** The remainders left by one or more characters satisfying [p], the
    longest run first. *)
Fixpoint plus_class (p : ascii → bool) (s : string) : list string :=
  match s with
  | EmptyString => []
  | String c s' => if p c then plus_class p s' ++ [s'] else []
  end.

(** [$] matches at the end of the string and just before a newline that
    ends the string. *)
Definition at_end (s : string) : bool :=
  String.eqb s "" || String.eqb s Py.nl.

(** The text consumed between the input [s] and the remainder [s']. *)
Definition consumed (s s' : string) : string :=
  String.substring 0 (String.length s - String.length s') s.

(** All the ways [r] matches a prefix of [s], in the order in which the
    backtracking matcher tries them; each comes with the texts of its
    groups (by opening parenthesis) and the unread remainder. *)
Fixpoint matches (r : regex) (s : string) : list (list string * string) :=
  match r with
  | Lit l =>
      match strip_prefix l s with Some s' => [([], s')] | None => [] end
  | Class neg cs =>
      match s with
      | String c s' => if in_class neg cs c then [([], s')] else []
      | EmptyString => []
      end
  | PlusClass neg cs => (λ s', ([], s')) <$> plus_class (in_class neg cs) s
  | Opt r1 => matches r1 s ++ [([], s)]
  | Cat r1 r2 =>
      matches r1 s ≫= λ m1 : list string * string,
        (λ m2 : list string * string, ((m1.1 ++ m2.1)%list, m2.2)) <$> matches r2 m1.2
  | Group r1 =>
      (λ m : list string * string, (consumed s m.2 :: m.1, m.2)) <$> matches r1 s
  | Dollar => if at_end s then [([], s)] else []
  end.

(** [re.search(r, s)]: the first match at the leftmost position that has
    one; the result is [match.groups()]. *)
Fixpoint search (r : regex) (s : string) : option (list string) :=
  match matches r s with
  | m :: _ => Some m.1
  | [] =>
      match s with
      | EmptyString => None
      | String _ s' => search r s'
      end
  end.

End Re.

(** ** The remote API

    The two GitHub endpoints are an oracle: what a request returns may
    depend on every request made before it.  The credential header is the
    same on every request of one analyzer and is left implicit. *)

(** One element of the JSON array of a directory listing, with the three
    fields the analyzer reads. *)
Record item := { name : string; type : string; url : string }.

(** The ['content'] field of a file's JSON object, when there is one: a
    JSON string, or any other JSON value. *)
Inductive content_field :=
| JsonString (s : string)
| JsonOther.

Record file_json := { content : option content_field }.

(** What [requests.get(...)] followed by [response.json()] gives: either
    one of the two raises on its own, or there is a response with a status
    code and a JSON body. *)
Inductive reply (A : Type) :=
| Raises (e : Py.exn)
| Response (status_code : Z) (json : A).
Arguments Raises {A} e.
Arguments Response {A} status_code json.

(** Network requests, tagged by the method that issues them. *)
Inductive request :=
| Listing (url : string)       (* by [get_contents] *)
| Download (url : string).     (* by [get_file_content] *)

Record remote := {
  listing : list request → string → reply (list item);
  download : list request → string → reply file_json
}.

(** [response.raise_for_status()]: statuses 400 to 599 raise. *)
Definition raise_for_status (url : string) (status_code : Z) : option Py.exn :=
  if ((400 <=? status_code) && (status_code <? 600))%Z
  then Some (Py.HTTPError status_code url) else None.

(** ** [GitHubRepoAnalyzer] *)

(** The attributes [__init__] sets and no method changes. *)
Record analyzer := {
  headers : string;
  owner : string;
  repo : string;
  base_url : string
}.

(** One executed iteration of the [else] branch of [process_path]: the
    tree line of the file entry, its full path and the value assigned to
    [contents[full_path]]. *)
Record file_visit := {
  visit_line : string;
  visit_path : string;
  visit_value : string
}.

(** The mutable state of a traversal: [self.content_cache], the two
    accumulators of [analyze_repo], and two history variables that no
    code reads: the requests sent so far and the file entries visited so
    far, both oldest first. *)
Record state := {
  content_cache : gmap string string;
  structure : list string;
  contents : Py.dict;
  requests : list request;
  visits : list file_visit
}.

Definition sent (r : request) (st : state) : state :=
  {| content_cache := content_cache st; structure := structure st;
     contents := contents st; requests := requests st ++ [r];
     visits := visits st |}.

Definition cache_set (k v : string) (st : state) : state :=
  {| content_cache := <[k := v]> (content_cache st); structure := structure st;
     contents := contents st; requests := requests st;
     visits := visits st |}.

Definition structure_append (line : string) (st : state) : state :=
  {| content_cache := content_cache st; structure := structure st ++ [line];
     contents := contents st; requests := requests st;
     visits := visits st |}.

Definition contents_set (line full_path v : string) (st : state) : state :=
  {| content_cache := content_cache st; structure := structure st;
     contents := Py.setitem full_path v (contents st); requests := requests st;
     visits := visits st ++ [{| visit_line := line; visit_path := full_path;
                                visit_value := v |}] |}.

(** How a call of [process_path] ends.  [OutOfFuel] stands for a
    recursion deeper than the fuel given. *)
Inductive outcome :=
| OutOfFuel
| Raised (e : Py.exn) (st : state)
| Done (st : state).

Definition pattern_ssh : Re.regex :=
  (* github\.com[:/]([^/]+)/([^/\.]+)(?:\.git)?$ *)
  Re.Cat (Re.Lit "github.com")
    (Re.Cat (Re.Class false [":"; "/"]%char)
      (Re.Cat (Re.Group (Re.PlusClass true ["/"]%char))
        (Re.Cat (Re.Lit "/")
          (Re.Cat (Re.Group (Re.PlusClass true ["/"; "."]%char))
            (Re.Cat (Re.Opt (Re.Lit ".git")) Re.Dollar))))).

Definition pattern_web : Re.regex :=
  (* github\.com/([^/]+)/([^/]+)/?$ *)
  Re.Cat (Re.Lit "github.com/")
    (Re.Cat (Re.Group (Re.PlusClass true ["/"]%char))
      (Re.Cat (Re.Lit "/")
        (Re.Cat (Re.Group (Re.PlusClass true ["/"]%char))
          (Re.Cat (Re.Opt (Re.Lit "/")) Re.Dollar)))).

Definition invalid_url_message : string :=
  "Invalid GitHub URL. Expected format: " +:+
  "https://github.com/owner/repo or " +:+
  "git@github.com:owner/repo.git".

(** [for pattern in patterns: ...]: the groups of the first pattern that
    matches. *)
Fixpoint first_match (patterns : list Re.regex) (url : string)
  : option (list string) :=
  match patterns with
  | [] => None
  | pattern :: rest =>
      match Re.search pattern url with
      | Some groups => Some groups
      | None => first_match rest url
      end
  end.

Definition _parse_github_url (url : string) : Py.result (list string) :=
  let patterns := [pattern_ssh; pattern_web] in
  match first_match patterns url with
  | Some groups => inr groups
  | None => inl (Py.ValueError invalid_url_message)
  end.

(** [__init__]; the cache starts empty.  Both patterns have two groups,
    which the tuple assignment unpacks. *)
Definition init (token repo_url : string)
  : Py.result (analyzer * gmap string string) :=
  match _parse_github_url repo_url with
  | inl e => inl e
  | inr [o; r] =>
      inr ({| headers := "token " +:+ token; owner := o; repo := r;
              base_url := "https://api.github.com/repos/" +:+ o +:+ "/" +:+ r |},
           ∅)
  | inr _ => inl (Py.ValueError "not enough values to unpack")
  end.

Section Methods.
Context (api : remote).
(** [base64.b64decode(s).decode('utf-8')], [None] when either raises. *)
Context (b64decode_utf8 : string → option string).
(** [str(e)]. *)
Context (str : Py.exn → string).
Context (self : analyzer).

Definition get_contents (path : string) (st : state)
  : Py.result (list item) * state :=
  let u := base_url self +:+ "/contents/" +:+ path in
  let st' := sent (Listing u) st in
  match listing api (requests st) u with
  | Raises e => (inl e, st')
  | Response status_code json =>
      match raise_for_status u status_code with
      | Some e => (inl e, st')
      | None => (inr json, st')
      end
  end.

(** The [try] block around the decoding; a ['content'] that is not a
    string makes [b64decode] raise, which the [except] catches too. *)
Definition decode_content (c : content_field) : string :=
  match c with
  | JsonString s =>
      match b64decode_utf8 s with
      | Some text => text
      | None => "Error decoding content (possibly binary file)."
      end
  | JsonOther => "Error decoding content (possibly binary file)."
  end.

Definition get_file_content (file_api_url : string) (st : state)
  : Py.result string * state :=
  match content_cache st !! file_api_url with
  | Some cached => (inr cached, st)
  | None =>
      let st' := sent (Download file_api_url) st in
      match download api (requests st) file_api_url with
      | Raises e => (inl e, st')
      | Response status_code json_resp =>
          match raise_for_status file_api_url status_code with
          | Some e => (inl e, st')
          | None =>
              match content json_resp with
              | None =>
                  let v := "Non-text content or unexpected format." in
                  (inr v, cache_set file_api_url v st')
              | Some c =>
                  let v := decode_content c in
                  (inr v, cache_set file_api_url v st')
              end
          end
      end
  end.

Definition sort_key (x : item) : bool * string :=
  (negb (String.eqb (type x) "dir"), name x).

Definition is_last (idx count : nat) : bool :=
  (Z.of_nat idx =? Z.of_nat count - 1)%Z.

Definition connector (idx count : nat) : string :=
  if is_last idx count then "└── " else "├── ".

Definition full_path_of (path : string) (x : item) : string :=
  if String.eqb path "" then name x else path +:+ "/" +:+ name x.

Definition new_prefix_of (prefix : string) (idx count : nat) : string :=
  prefix +:+ (if is_last idx count then "    " else "│   ").

(** The body of the [for] loop of [process_path]; [rec] is the
    recursive call. *)
Definition process_entry (rec : string → string → state → outcome)
    (path prefix : string) (count idx : nat) (x : item) (st : state)
  : outcome :=
  let full_path := full_path_of path x in
  let structure_path := prefix +:+ connector idx count +:+ name x in
  let st := structure_append structure_path st in
  if String.eqb (type x) "dir" then
    rec full_path (new_prefix_of prefix idx count) st
  else
    match get_file_content (url x) st with
    | (inr v, st') => Done (contents_set structure_path full_path v st')
    | (inl e, st') =>
        Done (contents_set structure_path full_path
                ("Error reading file: " +:+ str e) st')
    end.

(** [for idx, item in enumerate(items)], from index [idx] on. *)
Fixpoint process_entries (rec : string → string → state → outcome)
    (path prefix : string) (count idx : nat) (items : list item) (st : state)
  : outcome :=
  match items with
  | [] => Done st
  | x :: rest =>
      match process_entry rec path prefix count idx x st with
      | Done st' => process_entries rec path prefix count (S idx) rest st'
      | stop => stop
      end
  end.

Fixpoint process_path (fuel : nat) (path prefix : string) (st : state)
  : outcome :=
  match fuel with
  | O => OutOfFuel
  | S fuel' =>
      match get_contents path st with
      | (inl e, st') => Raised e st'
      | (inr items, st') =>
          let items := Py.sorted Py.tuple_lt sort_key items in
          let count := length items in
          process_entries (process_path fuel') path prefix count 0 items st'
      end
  end.

(** [analyze_repo], run on an analyzer whose cache is [cache] after the
    requests [net]. *)
Definition analyze_repo (fuel : nat) (cache : gmap string string)
    (net : list request) : outcome :=
  process_path fuel "" ""
    {| content_cache := cache; structure := []; contents := [];
       requests := net; visits := [] |}.

(** What the caller of [analyze_repo] receives. *)
Definition returned (o : outcome) : option (Py.result (list string * Py.dict)) :=
  match o with
  | OutOfFuel => None
  | Raised e _ => Some (inl e)
  | Done st => Some (inr (structure st, contents st))
  end.

End Methods.

(** ** [save_analysis]

    The file is the text written to it so far; the function returns the
    text of [output_file] when it is closed. *)

Definition write (s : string) (f : string) : string := f +:+ s.

Definition save_analysis (structure : list string) (contents : Py.dict)
  : string :=
  let f := "" in
  let f := write ("# Repository Structure" +:+ Py.nl +:+ Py.nl) f in
  let f := write ("```" +:+ Py.nl) f in
  let f := write (Py.join Py.nl structure) f in
  let f := write (Py.nl +:+ "```" +:+ Py.nl +:+ Py.nl) f in
  let f := write ("# File Contents" +:+ Py.nl +:+ Py.nl) f in
  fold_left
    (λ f (kv : string * string),
       let f := write ("## " +:+ kv.1 +:+ Py.nl +:+ Py.nl) f in
       let f := write ("```" +:+ Py.nl) f in
       let f := write kv.2 f in
       write (Py.nl +:+ "```" +:+ Py.nl +:+ Py.nl) f)
    contents f.

(** ** [main]

    [main] is a function of what it reads: the value of [GITHUB_TOKEN],
    the list that [load_repos] returned and the lines typed at its
    prompts.  The saved list is taken to hold strings, as [save_repos]
    writes it; the two [os.makedirs] calls and the writing of the two
    files are taken to succeed.

    What [main] does on the outside, oldest first: the calls of [print] and
    [input], of [save_repos] and of [save_analysis]. *)
Inductive event :=
| Print (text : string)
| Input (prompt : string)
| SaveRepos (repos : list string)
| SaveAnalysis (output_file text : string).

(** How [main] ends: it returns, an exception leaves it, or the walker
    went deeper than the fuel given. *)
Inductive main_end :=
| Returns
| Propagates (e : Py.exn)
| Unfinished.

(** [str(idx)] for an index. *)
Definition str_of_nat (n : nat) : string :=
  NilZero.string_of_uint (Nat.to_uint n).

Section Main.
Context (api : remote).
Context (b64decode_utf8 : string → option string).
Context (str : Py.exn → string).
(** [int(s)], [None] when it raises [ValueError]; [s.strip()]. *)
Context (int : string → option Z) (strip : string → string).
(** [os.path.join(output_md_dir, name)] and [os.path.abspath]. *)
Context (md_path : string → string) (abspath : string → string).
Context (fuel : nat).

(** The numbered list of saved locators. *)
Definition menu (repos : list string) : list event :=
  Print "Saved GitHub repository URLs:"
  :: imap (λ idx url, Print (str_of_nat (S idx) +:+ ". " +:+ url)) repos
  ++ [Print "0. Enter a new repository URL"].

(** The choice of [repo_url]; [answer1] and [answer2] are the lines typed
    at the first and at the second prompt, whichever prompts these are.
    [None] stands for the early [return].  The index of
    [repos[choice_num - 1]] is in range by the test before it. *)
Definition choose_url (repos : list string) (answer1 answer2 : string)
  : list event * option string :=
  match repos with
  | _ :: _ =>
      let log := menu repos ++ [Input "Please select a number: "] in
      let choice := strip answer1 in
      match int choice with
      | Some choice_num =>
          if (choice_num =? 0)%Z then
            (log ++ [Input "Enter a new GitHub repository URL: "],
             Some (strip answer2))
          else if ((1 <=? choice_num)
                   && (choice_num <=? Z.of_nat (length repos)))%Z then
            (log, Some (nth (Z.to_nat (choice_num - 1)) repos ""))
          else (log ++ [Print "Invalid number selected."], None)
      | None => (log, Some choice)
      end
  | [] => ([Input "Enter GitHub repository URL: "], Some (strip answer1))
  end.

(** [if repo_url not in repos: repos.append(repo_url); save_repos(...)]. *)
Definition remember (repo_url : string) (repos : list string) : list event :=
  if bool_decide (repo_url ∈ repos) then []
  else [SaveRepos (repos ++ [repo_url])].

(** From the construction of the analyzer to the end of [main]. *)
Definition analyze_and_save (token repo_url : string)
  : list event * main_end :=
  match init token repo_url with
  | inl e => ([], Propagates e)
  | inr (analyzer, cache) =>
      let output_file := md_path (repo analyzer +:+ ".md") in
      match analyze_repo api b64decode_utf8 str analyzer fuel cache [] with
      | Done st =>
          ([SaveAnalysis output_file
              (save_analysis (structure st) (contents st));
            Print (Py.nl +:+ "Analysis completed successfully. "
                   +:+ "Results saved to:" +:+ Py.nl +:+ abspath output_file)],
           Returns)
      | Raised e _ => ([Print ("Error: " +:+ str e)], Returns)
      | OutOfFuel => ([], Unfinished)
      end
  end.

(** [main], given the value of [GITHUB_TOKEN], the list that [load_repos]
    returned and the lines typed. *)
Definition main (token : option string) (repos : list string)
    (answer1 answer2 : string) : list event * main_end :=
  match token with
  | None | Some EmptyString =>
      ([Print "Error: GITHUB_TOKEN environment variable is not set"], Returns)
  | Some token =>
      let (log, chosen) := choose_url repos answer1 answer2 in
      match chosen with
      | None => (log, Returns)
      | Some EmptyString =>
          (log ++ [Print "Repository URL was not entered."], Returns)
      | Some repo_url =>
          let (rest, ended) := analyze_and_save token repo_url in
          (log ++ remember repo_url repos ++ rest, ended)
      end
  end.

End Main.

(** ** Vocabulary of the statements *)

Definition is_dir (x : item) : bool := String.eqb (type x) "dir".

(** The order the specification gives for one listing: directories before
    files and, within a kind, ascending names. *)
Definition listing_order (a b : item) : Prop :=
  (is_dir a = true ∧ is_dir b = false) ∨
  (is_dir a = is_dir b ∧ String.leb (name a) (name b) = true).

(** [a] may stand before [b] in a list sorted by [key]. *)
Definition key_le {A K : Type} (lt : K → K → bool) (key : A → K) (a b : A)
  : Prop :=
  lt (key b) (key a) = false.

(** The tree line of an entry and the prefix handed to its children, as
    the specification words them, in terms of being the last sibling. *)
Definition tree_line (prefix : string) (last : bool) (entry_name : string)
  : string :=
  prefix +:+ (if last then "└── " else "├── ") +:+ entry_name.

Definition child_prefix (prefix : string) (last : bool) : string :=
  prefix +:+ (if last then "    " else "│   ").

Definition is_nil {A : Type} (l : list A) : bool :=
  match l with [] => true | _ :: _ => false end.

(** The state an outcome ends in, when it has one. *)
Definition state_of (o : outcome) : option state :=
  match o with
  | OutOfFuel => None
  | Raised _ st | Done st => Some st
  end.

(** [st'] is a later state of the run that was in [st]: the accumulators
    and the histories have only grown at their ends, the cache has only
    gained keys or kept its values. *)
Definition extends (st st' : state) : Prop :=
  structure st `prefix_of` structure st'
  ∧ requests st `prefix_of` requests st'
  ∧ visits st `prefix_of` visits st'
  ∧ content_cache st ⊆ content_cache st'
  ∧ Py.keys (contents st) `prefix_of` Py.keys (contents st').

(** A recursive call that only lets states grow. *)
Definition growing (rec : string → string → state → outcome) : Prop :=
  ∀ path prefix st st', state_of (rec path prefix st) = Some st' → extends st st'.

(** The exception a reply makes [get_contents] or [get_file_content]
    raise, if any. *)
Definition reply_error {A : Type} (url : string) (r : reply A)
  : option Py.exn :=
  match r with
  | Raises e => Some e
  | Response status_code _ => raise_for_status url status_code
  end.

(** ** A small repository to run the code on

    The root holds [b.txt], [a.txt] and the directory [z], which holds
    [c.txt].  The download of [a.txt] answers 500, [b.txt] decodes to
    [hi], the JSON of [c.txt] has no ['content'].  Any other request
    answers 404. *)

Definition demo_self : analyzer :=
  {| headers := "token t"; owner := "o"; repo := "r";
     base_url := "https://api.github.com/repos/o/r" |}.

Definition demo_a : item := {| name := "a.txt"; type := "file"; url := "u/a.txt" |}.
Definition demo_b : item := {| name := "b.txt"; type := "file"; url := "u/b.txt" |}.
Definition demo_z : item := {| name := "z"; type := "dir"; url := "u/z" |}.
Definition demo_c : item := {| name := "c.txt"; type := "file"; url := "u/z/c.txt" |}.

Definition demo_root : list item := [demo_b; demo_a; demo_z].

Definition demo_root_url : string :=
  "https://api.github.com/repos/o/r/contents/".

Definition demo_api : remote :=
  {| listing := λ _ u,
       if String.eqb u demo_root_url then Response 200 demo_root
       else if String.eqb u (demo_root_url +:+ "z") then Response 200 [demo_c]
       else Response 404 [];
     download := λ _ u,
       if String.eqb u "u/a.txt"
       then Response 500 {| content := None |}
       else if String.eqb u "u/b.txt"
       then Response 200 {| content := Some (JsonString "aGk=") |}
       else if String.eqb u "u/z/c.txt"
       then Response 200 {| content := None |}
       else Response 404 {| content := None |} |}.

Definition demo_b64 (s : string) : option string :=
  if String.eqb s "aGk=" then Some "hi" else None.

Definition demo_str (e : Py.exn) : string :=
  match e with
  | Py.HTTPError _ u => "HTTP error for url: " +:+ u
  | Py.RequestException msg | Py.ValueError msg => msg
  end.

Definition fresh : state :=
  {| content_cache := ∅; structure := []; contents := [];
     requests := []; visits := [] |}.

(** The demo run after the root listing, and after the entry [z]. *)
Definition demo_st0 : state := sent (Listing demo_root_url) fresh.

Definition demo_st1 : state :=
  match
    process_entries demo_api demo_b64 demo_str
      (process_path demo_api demo_b64 demo_str demo_self 1) "" "" 3 0
      [demo_z] demo_st0
  with
  | Done st => st
  | _ => fresh
  end.

(** The state in which the demo run ends. *)
Definition demo_final : state :=
  match process_path demo_api demo_b64 demo_str demo_self 2 "" "" fresh with
  | Done st => st
  | _ => fresh
  end.

(** ** Vocabulary for request histories

    The reply to the request at index [i] of a history is the oracle's
    answer to the requests before it. *)




(** Every listing requested at index [from] or later returned. *)
Definition listings_ok (api : remote) (from : nat) (log : list request)
  : Prop :=
  ∀ (i : nat) (u : string), (from ≤ i)%nat → log !! i = Some (Listing u) →
    reply_error u (listing api (take i log) u) = None.

(** What a call leaves in the request history, by the way it ends. *)
Definition listings_of_outcome (api : remote) (n : nat) (o : outcome) : Prop :=
  match o with
  | OutOfFuel => True
  | Done st' => listings_ok api n (requests st')
  | Raised e st' =>
      ∃ log u, requests st' = log ++ [Listing u]
        ∧ listings_ok api n log
        ∧ reply_error u (listing api log u) = Some e
  end.

(** The dictionary that the assignments [contents[path] = value] of the
    visits build, in order, from [d]. *)
Definition replay (vs : list file_visit) (d : Py.dict) : Py.dict :=
  fold_left (λ d v, Py.setitem (visit_path v) (visit_value v) d) vs d.

(** What [st'] has recorded since [st]: new visits, whose assignments
    made the content index, and new tree lines, among which each new visit
    has its own line, in the same order. *)
Definition records (st st' : state) : Prop :=
  ∃ new lines,
    visits st' = visits st ++ new
    ∧ structure st' = structure st ++ lines
    ∧ contents st' = replay new (contents st)
    ∧ (visit_line <$> new) `sublist_of` lines.

(** The tree lines of a directory that holds files only. *)
Fixpoint flat_lines (prefix : string) (files : list item) : list string :=
  match files with
  | [] => []
  | x :: rest => tree_line prefix (is_nil rest) (name x) :: flat_lines prefix rest
  end.

(** The value of the last visit of [p], if [p] was visited. *)
Definition last_value (p : string) (vs : list file_visit) : option string :=
  visit_value <$> last (filter (λ v, visit_path v = p) vs).

(** [lit in s]. *)
Fixpoint occurs (lit s : string) : bool :=
  match Re.strip_prefix lit s with
  | Some _ => true
  | None =>
      match s with
      | EmptyString => false
      | String _ s' => occurs lit s'
      end
  end.

(** [c not in s]. *)
Fixpoint free_of (c : ascii) (s : string) : bool :=
  match s with
  | EmptyString => true
  | String c' s' => negb (Ascii.eqb c' c) && free_of c s'
  end.



(** ** Vocabulary for texts and locators *)

(** Every character of [s] satisfies [p]. *)
Fixpoint all_chars (p : ascii → bool) (s : string) : bool :=
  match s with
  | EmptyString => true
  | String c s' => p c && all_chars p s'
  end.

(** [s.endswith(c)] for a single character. *)
Fixpoint ends_with (c : ascii) (s : string) : bool :=
  match s with
  | EmptyString => false
  | String c' EmptyString => Ascii.eqb c' c
  | String _ s' => ends_with c s'
  end.

(** [s.count(c)]. *)
Fixpoint count_char (c : ascii) (s : string) : nat :=
  match s with
  | EmptyString => 0
  | String c' s' => (if Ascii.eqb c' c then 1 else 0) + count_char c s'
  end.

(** [s.endswith(suffix)]. *)
Definition ends_in (suffix s : string) : Prop := ∃ x, s = x +:+ suffix.

(** ** Vocabulary for the document and for runs of [main] *)

(** The text of the document as the specification lays it out. *)
Definition fenced (text : string) : string :=
  "```" +:+ Py.nl +:+ text +:+ Py.nl +:+ "```" +:+ Py.nl +:+ Py.nl.

Definition file_section (kv : string * string) : string :=
  "## " +:+ kv.1 +:+ Py.nl +:+ Py.nl +:+ fenced kv.2.

Fixpoint concat_texts (l : list string) : string :=
  match l with
  | [] => ""
  | s :: rest => s +:+ concat_texts rest
  end.

Definition document (structure : list string) (contents : Py.dict) : string :=
  "# Repository Structure" +:+ Py.nl +:+ Py.nl
  +:+ fenced (Py.join Py.nl structure)
  +:+ "# File Contents" +:+ Py.nl +:+ Py.nl
  +:+ concat_texts (file_section <$> contents).

Definition is_save_repos (ev : event) : bool :=
  match ev with SaveRepos _ => true | _ => false end.


(** An event of the console: a [print] or an [input]. *)
Definition is_console (ev : event) : bool :=
  match ev with Print _ | Input _ => true | _ => false end.

(** Stand-ins to run [main] on: [int] on the three numerals used, a
    [strip] for answers typed without blanks around them, and the two
    path functions. *)
Definition demo_int (s : string) : option Z :=
  if String.eqb s "0" then Some 0%Z
  else if String.eqb s "1" then Some 1%Z
  else if String.eqb s "7" then Some 7%Z
  else None.

Definition demo_strip (s : string) : string := s.

Definition demo_md_path (file_name : string) : string :=
  "output/md/" +:+ file_name.

Definition demo_abspath (p : string) : string := "/app/" +:+ p.

(** [main] on the demo repository, with a token and the stand-ins. *)
Definition demo_main (api : remote) :=
  main api demo_b64 demo_str demo_int demo_strip demo_md_path demo_abspath 2
    (Some "t").

(** * Properties *)

(** ** Python's orders *)

Section StrOrder.

Lemma ascii_compare_refl c : Ascii.compare c c = Eq.
Proof. unfold Ascii.compare. apply N.compare_refl. Qed.

Lemma ascii_compare_lt_trans a b c :
  Ascii.compare a b = Lt → Ascii.compare b c = Lt → Ascii.compare a c = Lt.
Proof.
  unfold Ascii.compare. rewrite !N.compare_lt_iff. apply N.lt_trans.
Qed.

Lemma str_compare_refl s : String.compare s s = Eq.
Proof.
  induction s as [|c s IH]; simpl; [done|].
  by rewrite ascii_compare_refl.
Qed.

Lemma str_compare_lt_trans a b c :
  String.compare a b = Lt → String.compare b c = Lt → String.compare a c = Lt.
Proof.
  revert b c. induction a as [|x a IH]; intros [|y b] [|z c]; simpl; try done.
  destruct (Ascii.compare x y) eqn:Hxy; try done;
    destruct (Ascii.compare y z) eqn:Hyz; try done; intros Hab Hbc.
  - apply Ascii.compare_eq_iff in Hxy, Hyz. subst.
    rewrite ascii_compare_refl. eauto.
  - apply Ascii.compare_eq_iff in Hxy. subst. by rewrite Hyz.
  - apply Ascii.compare_eq_iff in Hyz. subst. by rewrite Hxy.
  - by rewrite (ascii_compare_lt_trans _ _ _ Hxy Hyz).
Qed.

Lemma str_lt_irrefl s : Py.str_lt s s = false.
Proof. unfold Py.str_lt, String.ltb. by rewrite str_compare_refl. Qed.

Lemma str_lt_trans a b c :
  Py.str_lt a b = true → Py.str_lt b c = true → Py.str_lt a c = true.
Proof.
  unfold Py.str_lt, String.ltb. intros Hab Hbc.
  destruct (String.compare a b) eqn:E1; try done.
  destruct (String.compare b c) eqn:E2; try done.
  by rewrite (str_compare_lt_trans _ _ _ E1 E2).
Qed.

Lemma str_lt_total a b :
  Py.str_lt a b = false → Py.str_lt b a = false → a = b.
Proof.
  unfold Py.str_lt, String.ltb. rewrite (String.compare_antisym b a).
  destruct (String.compare a b) eqn:E; simpl; try done.
  intros _ _. by apply String.compare_eq_iff.
Qed.

Lemma str_leb_not_lt a b : String.leb a b = negb (Py.str_lt b a).
Proof.
  unfold Py.str_lt, String.ltb, String.leb.
  rewrite (String.compare_antisym a b).
  by destruct (String.compare b a).
Qed.

Lemma tuple_lt_irrefl k : Py.tuple_lt k k = false.
Proof.
  unfold Py.tuple_lt. rewrite Bool.eqb_reflx. apply str_lt_irrefl.
Qed.

Lemma tuple_lt_trans a b c :
  Py.tuple_lt a b = true → Py.tuple_lt b c = true → Py.tuple_lt a c = true.
Proof.
  destruct a as [[] a], b as [[] b], c as [[] c]; unfold Py.tuple_lt; simpl;
    try done; apply str_lt_trans.
Qed.

Lemma tuple_lt_total a b :
  Py.tuple_lt a b = false → Py.tuple_lt b a = false → a = b.
Proof.
  destruct a as [[] a], b as [[] b]; unfold Py.tuple_lt; simpl; try done;
    intros H1 H2; f_equal; by apply str_lt_total.
Qed.

End StrOrder.

(** ** [sorted] is a stable sort *)

Section SortedFacts.
Context {A K : Type} `{EqDecision K} (lt : K → K → bool) (key : A → K).
Hypothesis lt_irrefl : ∀ k, lt k k = false.
Hypothesis lt_trans : ∀ a b c, lt a b = true → lt b c = true → lt a c = true.
Hypothesis lt_total : ∀ a b, lt a b = false → lt b a = false → a = b.

Local Abbreviation key_le := (key_le lt key).

Lemma lt_asym a b : lt a b = true → lt b a = false.
Proof.
  intros Hab. destruct (lt b a) eqn:Hba; [|done].
  pose proof (lt_irrefl a) as Ha.
  by rewrite (lt_trans _ _ _ Hab Hba) in Ha.
Qed.

Lemma key_le_trans a b c : key_le a b → key_le b c → key_le a c.
Proof.
  unfold key_le. intros Hab Hbc.
  destruct (lt (key c) (key a)) eqn:Hca; [|done].
  destruct (lt (key a) (key b)) eqn:Hab'.
  - by rewrite (lt_trans _ _ _ Hca Hab') in Hbc.
  - rewrite (lt_total _ _ Hab' Hab) in Hca. by rewrite Hca in Hbc.
Qed.

Lemma insert_perm x l : Py.insert lt key x l ≡ₚ x :: l.
Proof.
  induction l as [|y l IH]; simpl; [done|].
  destruct (lt (key y) (key x)); [|done].
  rewrite IH. apply Permutation_swap.
Qed.

Lemma sorted_perm l : Py.sorted lt key l ≡ₚ l.
Proof.
  induction l as [|x l IH]; simpl; [done|].
  by rewrite insert_perm, IH.
Qed.

Lemma insert_sorted x l :
  StronglySorted key_le l → StronglySorted key_le (Py.insert lt key x l).
Proof.
  induction 1 as [|y l Hl IH Hy]; simpl.
  - repeat constructor.
  - destruct (lt (key y) (key x)) eqn:Hyx.
    + constructor; [done|].
      rewrite Forall_forall in *. intros z Hz.
      rewrite insert_perm in Hz.
      apply elem_of_cons in Hz as [->|Hz].
      * by apply lt_asym.
      * by apply Hy.
    + constructor; [by constructor|].
      constructor; [done|].
      rewrite Forall_forall in *. intros z Hz.
      apply (key_le_trans _ y); [done|]. by apply Hy.
Qed.

Lemma sorted_sorted l : StronglySorted key_le (Py.sorted lt key l).
Proof.
  induction l as [|x l IH]; simpl; [constructor|]. by apply insert_sorted.
Qed.

Lemma insert_stable k x l :
  filter (λ y, key y = k) (Py.insert lt key x l)
  = filter (λ y, key y = k) (x :: l).
Proof.
  induction l as [|y l IH]; simpl; [done|].
  destruct (lt (key y) (key x)) eqn:Hyx; [|done].
  rewrite !filter_cons in *.
  destruct (decide (key y = k)) as [Hy|Hy],
           (decide (key x = k)) as [Hx|Hx]; try by rewrite IH.
  rewrite Hy, Hx in Hyx. by rewrite lt_irrefl in Hyx.
Qed.

Lemma sorted_stable k l :
  filter (λ y, key y = k) (Py.sorted lt key l) = filter (λ y, key y = k) l.
Proof.
  induction l as [|x l IH]; simpl; [done|].
  rewrite insert_stable, !filter_cons. by rewrite IH.
Qed.

End SortedFacts.

Section SortedUnique.
Context {A K : Type} `{EqDecision K} (lt : K → K → bool) (key : A → K).
Hypothesis lt_total : ∀ a b, lt a b = false → lt b a = false → a = b.

Local Abbreviation pick k := (filter (λ y : A, key y = k)).

Lemma pick_head_elem (k : K) (x : A) (l m : list A) :
  key x = k → pick k (x :: l) = pick k m → x ∈ m.
Proof.
  intros Hx Heq. rewrite filter_cons, decide_True in Heq by done.
  assert (x ∈ pick k m) as Hin by (rewrite <- Heq; left).
  by apply list_elem_of_filter in Hin as [_ ?].
Qed.

(** Two lists in key order that agree on every class of equal keys are
    the same list: being in order and stable determines the result of
    [sorted]. *)
Lemma stable_sorted_unique (l1 l2 : list A) :
  StronglySorted (key_le lt key) l1 → StronglySorted (key_le lt key) l2 →
  (∀ k, pick k l1 = pick k l2) → l1 = l2.
Proof.
  intros H1. revert l2.
  induction H1 as [|x l1 Hs1 IH Hx]; intros l2 H2 Heq.
  - destruct l2 as [|y l2]; [done|].
    specialize (Heq (key y)). rewrite filter_cons, decide_True in Heq by done.
    done.
  - destruct H2 as [|y l2 Hs2 Hy].
    { specialize (Heq (key x)).
      rewrite filter_cons, decide_True in Heq by done. done. }
    assert (key x = key y) as Hk.
    { destruct (decide (key x = key y)) as [|Hne]; [done|].
      assert (y ∈ x :: l1) as Hyin
        by (eapply pick_head_elem; [reflexivity|symmetry; apply Heq]).
      assert (x ∈ y :: l2) as Hxin
        by (eapply pick_head_elem; [reflexivity|apply Heq]).
      apply elem_of_cons in Hyin as [->|Hyin]; [done|].
      apply elem_of_cons in Hxin as [->|Hxin]; [done|].
      rewrite Forall_forall in Hx, Hy.
      apply lt_total; [apply (Hy _ Hxin)|apply (Hx _ Hyin)]. }
    assert (x = y) as ->.
    { specialize (Heq (key x)). rewrite !filter_cons in Heq.
      rewrite decide_True in Heq by done.
      rewrite decide_True in Heq by done. congruence. }
    f_equal. apply IH; [done|]. intros k.
    specialize (Heq k). rewrite !filter_cons in Heq.
    destruct (decide (key y = k)); congruence.
Qed.

End SortedUnique.

(** ** The order of a listing *)

Lemma key_le_listing_order (a b : item) :
  key_le Py.tuple_lt sort_key a b ↔ listing_order a b.
Proof.
  unfold key_le, listing_order, Py.tuple_lt, sort_key, is_dir; simpl.
  rewrite str_leb_not_lt.
  destruct (type a =? "dir")%string, (type b =? "dir")%string; simpl;
    destruct (Py.str_lt (name b) (name a)); simpl; intuition congruence.
Qed.

Lemma StronglySorted_iff {A} (R S : A → A → Prop) (l : list A) :
  (∀ a b, R a b ↔ S a b) → StronglySorted R l → StronglySorted S l.
Proof.
  intros HRS. induction 1 as [|x l Hl IH Hx]; constructor; [done|].
  eapply Forall_impl; [exact Hx|]. intros y. apply HRS.
Qed.

Lemma sort_items_sorted (items : list item) :
  StronglySorted listing_order (Py.sorted Py.tuple_lt sort_key items).
Proof.
  eapply StronglySorted_iff; [apply key_le_listing_order|].
  apply sorted_sorted.
  - apply tuple_lt_irrefl.
  - apply tuple_lt_trans.
  - apply tuple_lt_total.
Qed.

(** The sorted listing is the only arrangement of the listing that is in
    listing order and keeps entries with equal keys in the remote's order. *)
Lemma sorted_unique (items l' : list item) :
  StronglySorted listing_order l' →
  (∀ k, filter (λ x, sort_key x = k) l' = filter (λ x, sort_key x = k) items) →
  l' = Py.sorted Py.tuple_lt sort_key items.
Proof.
  intros Hs Hst.
  apply (stable_sorted_unique Py.tuple_lt sort_key tuple_lt_total).
  - eapply StronglySorted_iff; [|exact Hs].
    intros a b. symmetry. apply key_le_listing_order.
  - apply sorted_sorted;
      [apply tuple_lt_irrefl|apply tuple_lt_trans|apply tuple_lt_total].
  - intros k. rewrite Hst. symmetry. apply sorted_stable, tuple_lt_irrefl.
Qed.

(** C1. For every listing the entries the walker processes are the
    listing sorted with directories before files and, within a kind, by
    ascending name, equal keys staying in the remote's order; the order is
    a function of the listing alone, and the listing [b.txt], [a.txt], [z/]
    is processed as [z], [a.txt], [b.txt]. *)
Theorem C1_listing_order_dirs_first
    (api : remote) (b64 : string → option string) (str : Py.exn → string)
    (self : analyzer) (fuel : nat) (path prefix : string) (st : state)
    (items : list item) :
  let processed := Py.sorted Py.tuple_lt sort_key items in
  processed ≡ₚ items
  ∧ StronglySorted listing_order processed
  ∧ (∀ k, filter (λ x, sort_key x = k) processed
          = filter (λ x, sort_key x = k) items)
  ∧ process_path api b64 str self (S fuel) path prefix st
    = match get_contents api self path st with
      | (inl e, st') => Raised e st'
      | (inr listed, st') =>
          let sorted_items := Py.sorted Py.tuple_lt sort_key listed in
          process_entries api b64 str (process_path api b64 str self fuel)
            path prefix (length sorted_items) 0 sorted_items st'
      end
  ∧ Py.sorted Py.tuple_lt sort_key
      [ {| name := "b.txt"; type := "file"; url := "u/b.txt" |};
        {| name := "a.txt"; type := "file"; url := "u/a.txt" |};
        {| name := "z"; type := "dir"; url := "u/z" |} ]
    = [ {| name := "z"; type := "dir"; url := "u/z" |};
        {| name := "a.txt"; type := "file"; url := "u/a.txt" |};
        {| name := "b.txt"; type := "file"; url := "u/b.txt" |} ].
Proof.
  intros processed. repeat split.
  - apply sorted_perm.
  - apply sort_items_sorted.
  - intros k. apply sorted_stable, tuple_lt_irrefl.
Qed.

Lemma elem_of_prefix {A} (x : A) (l1 l2 : list A) :
  x ∈ l1 → l1 `prefix_of` l2 → x ∈ l2.
Proof. intros Hx [k ->]. apply elem_of_app. by left. Qed.

(** ** Insertion-ordered dictionaries *)

Section DictFacts.
Implicit Types (k v : string) (d : Py.dict).

Lemma getitem_setitem_eq k v d : Py.getitem k (Py.setitem k v d) = Some v.
Proof.
  induction d as [|[k' v'] d IH]; simpl.
  - by rewrite String.eqb_refl.
  - destruct (String.eqb_spec k' k) as [->|Hne]; simpl.
    + by rewrite String.eqb_refl.
    + by destruct (String.eqb_spec k' k).
Qed.

Lemma getitem_setitem_ne k k' v d :
  k ≠ k' → Py.getitem k' (Py.setitem k v d) = Py.getitem k' d.
Proof.
  intros Hne. induction d as [|[k0 v0] d IH]; simpl.
  - by destruct (String.eqb_spec k k').
  - destruct (String.eqb_spec k0 k) as [->|Hk0]; simpl.
    + by destruct (String.eqb_spec k k').
    + by rewrite IH.
Qed.

Lemma keys_setitem k v d :
  Py.keys (Py.setitem k v d)
  = if decide (k ∈ Py.keys d) then Py.keys d else Py.keys d ++ [k].
Proof.
  unfold Py.keys. induction d as [|[k' v'] d IH].
  - simpl. destruct (decide (k ∈ [])) as [Hin|]; [|done].
    by apply elem_of_nil in Hin.
  - cbn [Py.setitem fmap list_fmap fst].
    destruct (String.eqb_spec k' k) as [->|Hne].
    + cbn [fmap list_fmap fst]. rewrite decide_True; [done|]. left.
    + cbn [fmap list_fmap fst]. rewrite IH.
      destruct (decide (k ∈ d.*1)) as [Hin|Hin].
      * rewrite decide_True; [done|]. by right.
      * rewrite decide_False; [done|].
        intros [?|?]%elem_of_cons; congruence.
Qed.

Lemma keys_setitem_prefix k v d :
  Py.keys d `prefix_of` Py.keys (Py.setitem k v d).
Proof.
  rewrite keys_setitem. destruct (decide _); [done|]. by apply prefix_app_r.
Qed.

Lemma elem_of_keys_setitem k v d : k ∈ Py.keys (Py.setitem k v d).
Proof.
  rewrite keys_setitem. destruct (decide _); [done|].
  apply elem_of_app. right. left.
Qed.

Lemma NoDup_keys_setitem k v d :
  NoDup (Py.keys d) → NoDup (Py.keys (Py.setitem k v d)).
Proof.
  intros Hd. rewrite keys_setitem. destruct (decide _) as [|Hk]; [done|].
  apply NoDup_app. split_and!; [done| |apply NoDup_singleton].
  intros k' Hk' ->%list_elem_of_singleton. done.
Qed.

Lemma getitem_None k d : Py.getitem k d = None ↔ k ∉ Py.keys d.
Proof.
  unfold Py.keys. induction d as [|[k' v'] d IH]; simpl.
  - split; [intros _; apply not_elem_of_nil|done].
  - destruct (String.eqb_spec k' k) as [->|Hne].
    + split; [done|]. intros []. left.
    + rewrite IH, not_elem_of_cons. intuition congruence.
Qed.

End DictFacts.

(** ** The loop over the entries of one directory *)

Section Walker.
Context (api : remote) (b64 : string → option string) (str : Py.exn → string).
Context (self : analyzer).

Local Abbreviation get_contents := (get_contents api self).
Local Abbreviation get_file_content := (get_file_content api b64).
Local Abbreviation process_entry := (process_entry api b64 str).
Local Abbreviation process_entries := (process_entries api b64 str).
Local Abbreviation process_path := (process_path api b64 str self).

Lemma is_last_length {A} (pre post : list A) (x : A) :
  is_last (length pre) (length (pre ++ x :: post)) = is_nil post.
Proof.
  unfold is_last. rewrite length_app. simpl.
  destruct post as [|y post]; simpl.
  - apply Z.eqb_eq. lia.
  - apply Z.eqb_neq. lia.
Qed.

Lemma connector_tree_line {A} prefix (pre post : list A) (x : A) entry_name :
  prefix +:+ connector (length pre) (length (pre ++ x :: post)) +:+ entry_name
  = tree_line prefix (is_nil post) entry_name.
Proof. unfold connector, tree_line. by rewrite is_last_length. Qed.

Lemma new_prefix_child_prefix {A} prefix (pre post : list A) (x : A) :
  new_prefix_of prefix (length pre) (length (pre ++ x :: post))
  = child_prefix prefix (is_nil post).
Proof. unfold new_prefix_of, child_prefix. by rewrite is_last_length. Qed.

(** The loop over [l1 ++ l2] is the loop over [l1] followed, when that
    completes, by the loop over [l2] at the next indices. *)
Lemma process_entries_app rec path prefix count idx l1 l2 st :
  process_entries rec path prefix count idx (l1 ++ l2) st
  = match process_entries rec path prefix count idx l1 st with
    | Done st1 =>
        process_entries rec path prefix count (idx + length l1) l2 st1
    | stop => stop
    end.
Proof.
  revert idx st. induction l1 as [|x l1 IH]; intros idx st; simpl.
  - by rewrite Nat.add_0_r.
  - destruct (process_entry rec path prefix count idx x st); try done.
    rewrite IH. by replace (S idx + length l1) with (idx + S (length l1)) by lia.
Qed.

(** The loop, split at one entry that it reaches. *)
Lemma process_entries_split rec path prefix count pre x post st st1 :
  process_entries rec path prefix count 0 pre st = Done st1 →
  process_entries rec path prefix count 0 (pre ++ x :: post) st
  = match process_entry rec path prefix count (length pre) x st1 with
    | Done st2 =>
        process_entries rec path prefix count (S (length pre)) post st2
    | stop => stop
    end.
Proof. intros Hpre. rewrite process_entries_app, Hpre. done. Qed.

(** *** States only grow *)

Global Instance extends_refl : Reflexive extends.
Proof. intros st. by repeat split. Qed.

Global Instance extends_trans : Transitive extends.
Proof.
  intros a b c (?&?&?&?&?) (?&?&?&?&?).
  repeat split; by etrans.
Qed.

Lemma sent_extends r st : extends st (sent r st).
Proof. repeat split; simpl; try done. by apply prefix_app_r. Qed.

Lemma structure_append_extends line st : extends st (structure_append line st).
Proof. repeat split; simpl; try done. by apply prefix_app_r. Qed.

Lemma contents_set_extends line p v st : extends st (contents_set line p v st).
Proof.
  repeat split; simpl; try done.
  - by apply prefix_app_r.
  - apply keys_setitem_prefix.
Qed.

Lemma cache_set_extends k v st :
  content_cache st !! k = None → extends st (cache_set k v st).
Proof. intros Hk. repeat split; simpl; try done. by apply insert_subseteq. Qed.

Lemma get_contents_extends path st : extends st (get_contents path st).2.
Proof.
  unfold get_contents.
  destruct (listing api _ _) as [e|status_code json]; simpl;
    [apply sent_extends|].
  destruct (raise_for_status _ _); apply sent_extends.
Qed.

Lemma get_file_content_extends u st : extends st (get_file_content u st).2.
Proof.
  unfold get_file_content.
  destruct (content_cache st !! u) eqn:Hu; simpl; [done|].
  destruct (download api _ _) as [e|status_code json]; simpl;
    [apply sent_extends|].
  destruct (raise_for_status _ _); [apply sent_extends|].
  destruct (content json); simpl;
    (etrans; [apply sent_extends|by apply cache_set_extends]).
Qed.

Lemma process_entry_extends rec path prefix count idx x st st' :
  growing rec →
  state_of (process_entry rec path prefix count idx x st) = Some st' →
  extends st st'.
Proof.
  intros Hrec. unfold process_entry.
  destruct (type x =? "dir")%string.
  - intros H. etrans; [apply structure_append_extends|]. by eapply Hrec.
  - pose proof (get_file_content_extends (url x)
      (structure_append (prefix +:+ connector idx count +:+ name x) st)) as Hg.
    destruct (get_file_content (url x) _) as [[e|v] st1]; simpl in *;
      intros [= <-];
      (etrans; [apply structure_append_extends|]);
      (etrans; [exact Hg|]); apply contents_set_extends.
Qed.

Lemma process_entries_extends rec path prefix count idx items st st' :
  growing rec →
  state_of (process_entries rec path prefix count idx items st) = Some st' →
  extends st st'.
Proof.
  intros Hrec. revert idx st.
  induction items as [|x items IH]; intros idx st; simpl.
  - by intros [= <-].
  - destruct (process_entry rec path prefix count idx x st) as [|e s1|s1] eqn:Hx;
      simpl; try done.
    + intros [= <-]. eapply process_entry_extends; [done|]. by rewrite Hx.
    + intros H. etrans; [|by eapply IH].
      eapply process_entry_extends; [done|]. by rewrite Hx.
Qed.

Lemma process_path_growing fuel : growing (process_path fuel).
Proof.
  induction fuel as [|fuel IH]; intros path prefix st st'; simpl; [done|].
  pose proof (get_contents_extends path st) as Hg.
  destruct (get_contents path st) as [[e|items] st1]; simpl in *.
  - by intros [= <-].
  - intros H. etrans; [exact Hg|]. by eapply process_entries_extends.
Qed.

(** *** One entry of a listing *)

Lemma process_entry_file rec path prefix count idx x st :
  is_dir x = false →
  process_entry rec path prefix count idx x st
  = let line := prefix +:+ connector idx count +:+ name x in
    let fetched := get_file_content (url x) (structure_append line st) in
    Done (contents_set line (full_path_of path x)
            match fetched.1 with
            | inr v => v
            | inl e => "Error reading file: " +:+ str e
            end fetched.2).
Proof.
  unfold is_dir, process_entry. intros ->. simpl.
  by destruct (get_file_content _ _) as [[e|v] st1].
Qed.

Lemma process_entry_dir rec path prefix count idx x st :
  is_dir x = true →
  process_entry rec path prefix count idx x st
  = rec (full_path_of path x) (new_prefix_of prefix idx count)
      (structure_append (prefix +:+ connector idx count +:+ name x) st).
Proof. unfold is_dir, process_entry. by intros ->. Qed.

Lemma process_entry_extends_line rec path prefix count idx x st st' :
  growing rec →
  state_of (process_entry rec path prefix count idx x st) = Some st' →
  extends (structure_append (prefix +:+ connector idx count +:+ name x) st) st'.
Proof.
  intros Hrec. unfold process_entry.
  destruct (type x =? "dir")%string; [apply Hrec|].
  pose proof (get_file_content_extends (url x)
    (structure_append (prefix +:+ connector idx count +:+ name x) st)) as Hg.
  destruct (get_file_content (url x) _) as [[e|v] st1]; simpl in *;
    intros [= <-]; (etrans; [exact Hg|apply contents_set_extends]).
Qed.

(** C2. In every listing, the iteration for an entry appends the line
    [prefix + connector + name] to the tree lines before anything else, the
    connector being [└── ] exactly when no sibling follows the entry in the
    sorted listing and [├── ] otherwise; the line stays where it was
    appended until the call for the directory ends. *)
Theorem C2_tree_line_connector
    (fuel : nat) (path prefix : string) (st st0 st1 : state)
    (listed pre post : list item) (x : item) :
  get_contents path st = (inr listed, st0) →
  Py.sorted Py.tuple_lt sort_key listed = pre ++ x :: post →
  process_entries (process_path fuel) path prefix
    (length (pre ++ x :: post)) 0 pre st0 = Done st1 →
  let line := tree_line prefix (is_nil post) (name x) in
  let st1' := structure_append line st1 in
  structure st1' = structure st1 ++ [line]
  ∧ process_entry (process_path fuel) path prefix
      (length (pre ++ x :: post)) (length pre) x st1
    = (if is_dir x
       then process_path fuel (full_path_of path x)
              (child_prefix prefix (is_nil post)) st1'
       else let fetched := get_file_content (url x) st1' in
            Done (contents_set line (full_path_of path x)
                    match fetched.1 with
                    | inr v => v
                    | inl e => "Error reading file: " +:+ str e
                    end fetched.2))
  ∧ ∀ st', state_of (process_path (S fuel) path prefix st) = Some st' →
           structure st1 ++ [line] `prefix_of` structure st'.
Proof.
  intros Hget Hsort Hpre line st1'. split; [done|]. split.
  - destruct (is_dir x) eqn:Hx.
    + rewrite process_entry_dir by done.
      by rewrite connector_tree_line, new_prefix_child_prefix.
    + rewrite process_entry_file by done. simpl.
      by rewrite connector_tree_line.
  - intros st'. simpl. rewrite Hget, Hsort.
    rewrite (process_entries_split _ _ _ _ _ _ _ _ _ Hpre).
    intros Hst'.
    assert (extends st1' st') as (Hs&_); [|exact Hs].
    pose proof (process_entry_extends_line (process_path fuel) path prefix
      (length (pre ++ x :: post)) (length pre) x st1) as Hline.
    rewrite connector_tree_line in Hline. fold line st1' in Hline.
    destruct (process_entry _ _ _ _ _ x st1) as [|e s2|s2] eqn:Hx;
      simpl in Hst'; try done.
    + injection Hst' as <-. by apply Hline; [apply process_path_growing|].
    + etrans; [by apply (Hline s2); [apply process_path_growing|]|].
      eapply process_entries_extends; [apply process_path_growing|done].
Qed.

(** C3. The traversal is depth-first and pre-order: the iteration for a
    directory entry appends the entry's own line and then runs the
    recursive call, with the child prefix [prefix + "    "] when the entry
    is the last sibling and [prefix + "│   "] otherwise; the lines of the
    subtree follow the entry's line, and the loop goes on to the later
    siblings only from the state in which the recursive call ended. *)
Theorem C3_depth_first_preorder
    (fuel : nat) (path prefix : string) (st st0 st1 : state)
    (listed pre post : list item) (d : item) :
  get_contents path st = (inr listed, st0) →
  Py.sorted Py.tuple_lt sort_key listed = pre ++ d :: post →
  is_dir d = true →
  process_entries (process_path fuel) path prefix
    (length (pre ++ d :: post)) 0 pre st0 = Done st1 →
  let line := tree_line prefix (is_nil post) (name d) in
  let inner :=
    process_path fuel (full_path_of path d)
      (child_prefix prefix (is_nil post)) (structure_append line st1) in
  process_path (S fuel) path prefix st
  = match inner with
    | Done st2 =>
        process_entries (process_path fuel) path prefix
          (length (pre ++ d :: post)) (S (length pre)) post st2
    | stop => stop
    end
  ∧ (∀ st2, state_of inner = Some st2 →
       ∃ below, structure st2 = structure st1 ++ line :: below)
  ∧ (∀ st2 st', inner = Done st2 →
       state_of (process_path (S fuel) path prefix st) = Some st' →
       ∃ later, structure st' = structure st2 ++ later).
Proof.
  intros Hget Hsort Hd Hpre line inner.
  assert (process_path (S fuel) path prefix st
    = match inner with
      | Done st2 =>
          process_entries (process_path fuel) path prefix
            (length (pre ++ d :: post)) (S (length pre)) post st2
      | stop => stop
      end) as Hrun.
  { simpl. rewrite Hget, Hsort.
    rewrite (process_entries_split _ _ _ _ _ _ _ _ _ Hpre).
    rewrite process_entry_dir by done.
    rewrite connector_tree_line, new_prefix_child_prefix.
    unfold inner, line. by destruct (process_path fuel _ _ _). }
  split; [exact Hrun|]. split.
  - intros st2 Hst2.
    destruct (process_path_growing fuel _ _ _ _ Hst2) as ([below Hb]&_).
    exists below. rewrite Hb. simpl. by rewrite <- app_assoc.
  - intros st2 st' Hin. rewrite Hrun, Hin. intros Hst'.
    eapply process_entries_extends in Hst' as (Hp&_);
      [exact Hp|apply process_path_growing].
Qed.

(** *** Listings of files only *)

Lemma StronglySorted_suffix {A} (R : A → A → Prop) (pre l : list A) :
  StronglySorted R (pre ++ l) → StronglySorted R l.
Proof.
  induction pre as [|x pre IH]; simpl; [done|].
  intros [? _]%StronglySorted_inv. by apply IH.
Qed.

Lemma sorted_after_file (pre post : list item) (f : item) :
  StronglySorted listing_order (pre ++ f :: post) →
  is_dir f = false → Forall (λ g, is_dir g = false) post.
Proof.
  intros Hs Hf. apply StronglySorted_suffix in Hs.
  apply StronglySorted_inv in Hs as [_ Hpost].
  eapply Forall_impl; [exact Hpost|]. intros g [[? _]|[Heq _]]; congruence.
Qed.

(** A loop over file entries needs no recursive call: it completes, every
    entry has its line in the tree lines and its path among the keys. *)
Lemma process_entries_files rec path prefix count idx files st :
  Forall (λ g, is_dir g = false) files →
  ∃ st', process_entries rec path prefix count idx files st = Done st'
    ∧ extends st st'
    ∧ ∀ j g, files !! j = Some g →
        prefix +:+ connector (idx + j) count +:+ name g ∈ structure st'
        ∧ full_path_of path g ∈ Py.keys (contents st').
Proof.
  intros Hfiles. revert idx st.
  induction Hfiles as [|f files Hf _ IH]; intros idx st.
  - exists st. split_and!; [done..|].
    intros j g Hj. by rewrite lookup_nil in Hj.
  - simpl. rewrite process_entry_file by done. cbn zeta.
    set (line := prefix +:+ connector idx count +:+ name f).
    pose proof (get_file_content_extends (url f) (structure_append line st))
      as Hg.
    set (fetched := get_file_content (url f) (structure_append line st)) in *.
    set (st1 := contents_set line (full_path_of path f) _ fetched.2).
    assert (extends (structure_append line st) st1) as Hline
      by (etrans; [exact Hg|apply contents_set_extends]).
    destruct (IH (S idx) st1) as (st'&Hrun&Hext&Hall).
    exists st'. split_and!; [done| |].
    { etrans; [apply structure_append_extends|]. by etrans. }
    intros [|j] g Hj; simpl in Hj.
    + injection Hj as <-. rewrite Nat.add_0_r. fold line.
      destruct Hline as (Hs1&_), Hext as (Hs2&_&_&_&Hk2). split.
      * eapply elem_of_prefix; [|exact Hs2].
        eapply elem_of_prefix; [|exact Hs1].
        simpl. apply elem_of_app. right. left.
      * eapply elem_of_prefix; [|exact Hk2]. apply elem_of_keys_setitem.
    + replace (idx + S j) with (S idx + j) by lia. by apply Hall.
Qed.

(** The fetcher touches the cache and the request history only. *)
Lemma get_file_content_frame u st :
  structure (get_file_content u st).2 = structure st
  ∧ contents (get_file_content u st).2 = contents st
  ∧ visits (get_file_content u st).2 = visits st.
Proof.
  unfold get_file_content.
  destruct (content_cache st !! u); [done|].
  destruct (download api _ _) as [e|status_code json]; [done|].
  destruct (raise_for_status _ _); [done|].
  by destruct (content json).
Qed.

Lemma append_inj_l (p a b : string) : p +:+ a = p +:+ b → a = b.
Proof. induction p as [|c p IH]; simpl; [done|]. intros [= H]. auto. Qed.

Lemma full_path_of_inj path (x y : item) :
  full_path_of path x = full_path_of path y → name x = name y.
Proof.
  unfold full_path_of. destruct (path =? "")%string; [done|].
  intros H%append_inj_l. by apply (append_inj_l "/").
Qed.

Lemma process_entries_files_other rec path prefix count idx files st st' p :
  Forall (λ g, is_dir g = false ∧ full_path_of path g ≠ p) files →
  process_entries rec path prefix count idx files st = Done st' →
  Py.getitem p (contents st') = Py.getitem p (contents st).
Proof.
  intros Hfiles. revert idx st.
  induction Hfiles as [|g files [Hg Hp] _ IH]; intros idx st; simpl.
  - by intros [= <-].
  - rewrite process_entry_file by done. cbn zeta. intros Hrun.
    rewrite (IH _ _ Hrun). simpl. rewrite getitem_setitem_ne by done.
    by destruct (get_file_content_frame (url g) (structure_append
      (prefix +:+ connector idx count +:+ name g) st)) as (_&->&_).
Qed.

(** C4. When the fetch for a file entry raises, the traversal goes on:
    the iteration completes and records under the file's full path the
    text [Error reading file: ] followed by the exception's message; the
    siblings that follow in the sorted listing are all files, the loop
    over them and the call for the directory complete, and each of them
    has its tree line and its key in the content index. *)
Theorem C4_file_fetch_error_recorded
    (fuel : nat) (path prefix : string) (st st0 st1 st_f : state)
    (listed pre post : list item) (f : item) (e : Py.exn) :
  get_contents path st = (inr listed, st0) →
  Py.sorted Py.tuple_lt sort_key listed = pre ++ f :: post →
  is_dir f = false →
  process_entries (process_path fuel) path prefix
    (length (pre ++ f :: post)) 0 pre st0 = Done st1 →
  let line := tree_line prefix (is_nil post) (name f) in
  get_file_content (url f) (structure_append line st1) = (inl e, st_f) →
  let recorded := "Error reading file: " +:+ str e in
  let st2 := contents_set line (full_path_of path f) recorded st_f in
  process_entry (process_path fuel) path prefix
    (length (pre ++ f :: post)) (length pre) f st1 = Done st2
  ∧ Py.getitem (full_path_of path f) (contents st2) = Some recorded
  ∧ ∃ st',
      process_path (S fuel) path prefix st = Done st'
      ∧ process_entries (process_path fuel) path prefix
          (length (pre ++ f :: post)) (S (length pre)) post st2 = Done st'
      ∧ full_path_of path f ∈ Py.keys (contents st')
      ∧ (Forall (λ g, name g ≠ name f) post →
         Py.getitem (full_path_of path f) (contents st') = Some recorded)
      ∧ ∀ j g, post !! j = Some g →
          is_dir g = false
          ∧ tree_line prefix (is_nil (drop (S j) post)) (name g)
              ∈ structure st'
          ∧ full_path_of path g ∈ Py.keys (contents st').
Proof.
  intros Hget Hsort Hf Hpre line Hfetch recorded st2.
  assert (process_entry (process_path fuel) path prefix
    (length (pre ++ f :: post)) (length pre) f st1 = Done st2) as Hentry.
  { rewrite process_entry_file by done. cbn zeta.
    rewrite connector_tree_line. fold line. by rewrite Hfetch. }
  assert (Forall (λ g, is_dir g = false) post) as Hpost.
  { eapply sorted_after_file; [|exact Hf].
    rewrite <- Hsort. apply sort_items_sorted. }
  destruct (process_entries_files (process_path fuel) path prefix
    (length (pre ++ f :: post)) (S (length pre)) post st2 Hpost)
    as (st'&Hrun&Hext&Hall).
  split; [exact Hentry|]. split; [apply getitem_setitem_eq|].
  exists st'. split_and!.
  - simpl. rewrite Hget, Hsort.
    by rewrite (process_entries_split _ _ _ _ _ _ _ _ _ Hpre), Hentry.
  - exact Hrun.
  - destruct Hext as (_&_&_&_&Hk).
    eapply elem_of_prefix; [|exact Hk]. apply elem_of_keys_setitem.
  - intros Hnames.
    assert (Forall (λ g, is_dir g = false
      ∧ full_path_of path g ≠ full_path_of path f) post) as Hother.
    { rewrite Forall_forall in *. intros g Hg. split; [by apply Hpost|].
      intros Heq%full_path_of_inj. by apply (Hnames g). }
    rewrite (process_entries_files_other _ _ _ _ _ _ _ _ _ Hother Hrun).
    apply getitem_setitem_eq.
  - intros j g Hj. split.
    { rewrite Forall_forall in Hpost. apply Hpost.
      by eapply list_elem_of_lookup_2. }
    destruct (Hall j g Hj) as [Hline Hkey]. split; [|exact Hkey].
    assert (pre ++ f :: post
      = (pre ++ f :: take j post) ++ g :: drop (S j) post) as Hsplit.
    { rewrite <- app_assoc. simpl. do 2 f_equal.
      by rewrite <- (take_drop_middle post j g) at 1. }
    assert (S (length pre) + j = length (pre ++ f :: take j post)) as Hidx.
    { rewrite length_app. simpl. rewrite length_take.
      apply lookup_lt_Some in Hj. lia. }
    rewrite Hidx, Hsplit in Hline.
    by rewrite connector_tree_line in Hline.
Qed.

End Walker.

(** ** The walker on the demo repository *)

Local Abbreviation demo_walk := (process_path demo_api demo_b64 demo_str demo_self).

Lemma C2_tree_line_connector_witness :
  demo_walk 2 "" "" fresh = Done demo_final
  ∧ ["├── z"] `prefix_of` structure demo_final.
Proof.
  split; [vm_compute; reflexivity|].
  apply (proj2 (proj2 (C2_tree_line_connector demo_api demo_b64 demo_str
    demo_self 1 "" "" fresh demo_st0 demo_st0 demo_root [] [demo_a; demo_b]
    demo_z eq_refl eq_refl eq_refl)) demo_final).
  vm_compute; reflexivity.
Defined.

Lemma C3_depth_first_preorder_witness :
  demo_walk 1 "z" "│   " (structure_append "├── z" demo_st0) = Done demo_st1
  ∧ ∃ below, structure demo_st1 = [] ++ "├── z" :: below.
Proof.
  split; [vm_compute; reflexivity|].
  apply (proj1 (proj2 (C3_depth_first_preorder demo_api demo_b64 demo_str
    demo_self 1 "" "" fresh demo_st0 demo_st0 demo_root [] [demo_a; demo_b]
    demo_z eq_refl eq_refl eq_refl eq_refl)) demo_st1).
  vm_compute; reflexivity.
Defined.

Lemma C4_file_fetch_error_recorded_witness :
  ∃ st', demo_walk 2 "" "" fresh = Done st'
    ∧ Py.getitem "a.txt" (contents st')
      = Some "Error reading file: HTTP error for url: u/a.txt"
    ∧ "└── b.txt" ∈ structure st'
    ∧ "b.txt" ∈ Py.keys (contents st').
Proof.
  destruct (C4_file_fetch_error_recorded demo_api demo_b64 demo_str demo_self
    1 "" "" fresh demo_st0 demo_st1
    (sent (Download "u/a.txt") (structure_append "├── a.txt" demo_st1))
    demo_root [demo_z] [demo_b] demo_a (Py.HTTPError 500 "u/a.txt")
    eq_refl eq_refl eq_refl eq_refl eq_refl)
    as (_ & _ & st' & Hrun & _ & _ & Hkeep & Hlater).
  exists st'. split; [exact Hrun|]. split.
  - apply Hkeep. repeat constructor. discriminate.
  - destruct (Hlater 0 demo_b eq_refl) as (_ & Hline & Hkey). by split.
Defined.

(** ** The fetcher and its cache *)

Section Fetcher.
Context (api : remote) (b64 : string → option string).

Local Abbreviation get_file_content := (get_file_content api b64).

(** The four ways a fetch can go. *)
Lemma get_file_content_cases u st :
  (∃ v, content_cache st !! u = Some v ∧ get_file_content u st = (inr v, st))
  ∨ (content_cache st !! u = None
     ∧ ∃ e, reply_error u (download api (requests st) u) = Some e
         ∧ get_file_content u st = (inl e, sent (Download u) st))
  ∨ (content_cache st !! u = None
     ∧ reply_error u (download api (requests st) u) = None
     ∧ ∃ v, get_file_content u st
            = (inr v, cache_set u v (sent (Download u) st))).
Proof.
  unfold get_file_content.
  destruct (content_cache st !! u) as [v|] eqn:Hu; [left; eauto|right].
  destruct (download api (requests st) u) as [e|status_code json] eqn:Hr;
    simpl.
  { left. eauto. }
  destruct (raise_for_status u status_code) as [e|]; [left; eauto|right].
  split; [done|]. split; [done|]. destruct (content json); eauto.
Qed.

(** X1. A fetch that returns leaves its value in the cache, and a second
    fetch of the same locator returns that value with no request and no
    other change of state. *)
Theorem fetch_twice_hits_cache u st v st' :
  get_file_content u st = (inr v, st') →
  content_cache st' !! u = Some v
  ∧ get_file_content u st' = (inr v, st')
  ∧ (requests st' = requests st ∨ requests st' = requests st ++ [Download u]).
Proof.
  intros Hfetch.
  assert (content_cache st' !! u = Some v
    ∧ (requests st' = requests st ∨ requests st' = requests st ++ [Download u]))
    as [Hc Hr].
  { destruct (get_file_content_cases u st)
      as [(w&Hw&Heq)|[(_&e&_&Heq)|(_&_&w&Heq)]];
      rewrite Heq in Hfetch; try done; injection Hfetch as <- <-.
    - split; [done|by left].
    - split; [apply lookup_insert_eq|by right]. }
  split; [done|]. split; [|done].
  unfold get_file_content. by rewrite Hc.
Qed.

(** X2. A fetch that raises caches nothing: the state only gains the request,
    and the next fetch of the same locator asks the remote again. *)
Theorem failed_fetch_is_retried u st e st' :
  get_file_content u st = (inl e, st') →
  st' = sent (Download u) st
  ∧ content_cache st' = content_cache st
  ∧ reply_error u (download api (requests st) u) = Some e
  ∧ requests (get_file_content u st').2
    = requests st ++ [Download u; Download u].
Proof.
  intros Hfetch.
  destruct (get_file_content_cases u st)
    as [(w&Hw&Heq)|[(Hu&e'&He&Heq)|(_&_&w&Heq)]];
    rewrite Heq in Hfetch; try done. injection Hfetch as <- <-.
  split; [done|]. split; [done|]. split; [done|].
  destruct (get_file_content_cases u (sent (Download u) st))
    as [(w&Hw&_)|[(_&e2&_&Heq2)|(_&_&w&Heq2)]].
  - simpl in Hw. congruence.
  - rewrite Heq2. simpl. by rewrite <- app_assoc.
  - rewrite Heq2. simpl. by rewrite <- app_assoc.
Qed.




End Fetcher.

(** ** Whole runs of the walker *)

Section Runs.
Context (api : remote) (b64 : string → option string) (str : Py.exn → string).
Context (self : analyzer).

Local Abbreviation get_contents := (get_contents api self).
Local Abbreviation get_file_content := (get_file_content api b64).
Local Abbreviation process_entry := (process_entry api b64 str).
Local Abbreviation process_entries := (process_entries api b64 str).
Local Abbreviation process_path := (process_path api b64 str self).

(** *** Properties of the cache and the histories that every step keeps *)

Section Preserved.
Context (P : state → Prop).
Hypothesis P_frame : ∀ st st',
  content_cache st' = content_cache st → requests st' = requests st →
  P st → P st'.
Hypothesis P_listing : ∀ path st, P st → P (get_contents path st).2.
Hypothesis P_fetch : ∀ u st, P st → P (get_file_content u st).2.




End Preserved.

Lemma get_contents_sent path st :
  (get_contents path st).2
  = sent (Listing (base_url self +:+ "/contents/" +:+ path)) st.
Proof.
  unfold get_contents.
  destruct (listing api _ _) as [e|status_code json]; [done|].
  by destruct (raise_for_status _ _).
Qed.



(** *** Listings that fail *)

Lemma get_contents_cases path st :
  let u := base_url self +:+ "/contents/" +:+ path in
  (∃ e, reply_error u (listing api (requests st) u) = Some e
     ∧ get_contents path st = (inl e, sent (Listing u) st))
  ∨ (reply_error u (listing api (requests st) u) = None
     ∧ ∃ items, get_contents path st = (inr items, sent (Listing u) st)).
Proof.
  intros u. unfold get_contents. fold u.
  destruct (listing api (requests st) u) as [e|status_code json]; simpl.
  { left. eauto. }
  destruct (raise_for_status u status_code); [left|right]; eauto.
Qed.

(** X5. A call for a directory whose listing fails raises the listing's
    exception at once, for a status from 400 to 599 as for an exception of
    the request itself: the state only gains the request, no line and no
    content is added, and the caller of [analyze_repo] gets the exception
    and no result. *)
Theorem listing_failure_aborts fuel path prefix st e :
  let u := base_url self +:+ "/contents/" +:+ path in
  reply_error u (listing api (requests st) u) = Some e →
  process_path (S fuel) path prefix st = Raised e (sent (Listing u) st)
  ∧ returned (process_path (S fuel) path prefix st) = Some (inl e).
Proof.
  intros u He. simpl.
  destruct (get_contents_cases path st) as [(e'&He'&->)|(Hok&_)].
  - fold u in He'. by replace e' with e by congruence.
  - fold u in Hok. congruence.
Qed.

Lemma listings_ok_snoc_download n log u :
  listings_ok api n log → listings_ok api n (log ++ [Download u]).
Proof.
  intros Hok i u' Hn Hi. apply lookup_snoc_Some in Hi as [[Hlt Hi]|[_ [=]]].
  rewrite take_app_le by lia. by apply Hok.
Qed.

Lemma listings_ok_snoc_listing n log u :
  listings_ok api n log → reply_error u (listing api log u) = None →
  listings_ok api n (log ++ [Listing u]).
Proof.
  intros Hok Hu i u' Hn Hi.
  apply lookup_snoc_Some in Hi as [[Hlt Hi]|[-> [= <-]]].
  - rewrite take_app_le by lia. by apply Hok.
  - by rewrite take_app_length.
Qed.

Lemma get_file_content_listings_ok n u st :
  listings_ok api n (requests st) →
  listings_ok api n (requests (get_file_content u st).2).
Proof.
  intros Hok.
  destruct (get_file_content_cases api b64 u st)
    as [(w&_&->)|[(_&e&_&->)|(_&_&w&->)]]; simpl; [done|..];
    by apply listings_ok_snoc_download.
Qed.

Lemma process_entries_listings rec n path prefix count idx items st :
  (∀ p q s, listings_ok api n (requests s) → listings_of_outcome api n (rec p q s)) →
  listings_ok api n (requests st) →
  listings_of_outcome api n (process_entries rec path prefix count idx items st).
Proof.
  intros Hrec. revert idx st.
  induction items as [|x items IH]; intros idx st Hok; simpl; [done|].
  assert (listings_of_outcome api n (process_entry rec path prefix count idx x st))
    as Hx.
  { unfold process_entry.
    destruct (type x =? "dir")%string; [by apply Hrec|].
    pose proof (get_file_content_listings_ok n (url x)
      (structure_append (prefix +:+ connector idx count +:+ name x) st) Hok)
      as Hf.
    by destruct (get_file_content (url x) _) as [[e|v] st2]. }
  destruct (process_entry rec path prefix count idx x st) as [|e s1|s1];
    try done.
  by apply IH.
Qed.

Lemma process_path_listings fuel n path prefix st :
  listings_ok api n (requests st) →
  listings_of_outcome api n (process_path fuel path prefix st).
Proof.
  revert path prefix st.
  induction fuel as [|fuel IH]; intros path prefix st Hok; simpl; [done|].
  destruct (get_contents_cases path st) as [(e&He&->)|(Hu&items&->)].
  - simpl. eauto.
  - apply process_entries_listings; [by intros; apply IH|].
    simpl. by apply listings_ok_snoc_listing.
Qed.

Lemma listings_ok_start log : listings_ok api (length log) log.
Proof. intros i u Hn Hi%lookup_lt_Some. lia. Qed.


(** X7. A call that completes has had every one of its listings, at every
    depth, return: one failed listing is enough for no result. *)
Theorem completed_run_listings_returned fuel path prefix st st' :
  process_path fuel path prefix st = Done st' →
  listings_ok api (length (requests st)) (requests st').
Proof.
  intros Hrun.
  pose proof (process_path_listings fuel _ path prefix st
    (listings_ok_start (requests st))) as H.
  by rewrite Hrun in H.
Qed.

(** *** What a run records *)

Lemma replay_snoc vs v d :
  replay (vs ++ [v]) d = Py.setitem (visit_path v) (visit_value v) (replay vs d).
Proof. unfold replay. by rewrite fold_left_app. Qed.

Lemma replay_app vs1 vs2 d : replay (vs1 ++ vs2) d = replay vs2 (replay vs1 d).
Proof. unfold replay. by rewrite fold_left_app. Qed.

Lemma last_value_snoc p vs v :
  last_value p (vs ++ [v])
  = if decide (visit_path v = p) then Some (visit_value v) else last_value p vs.
Proof.
  unfold last_value. rewrite filter_app, filter_cons, filter_nil.
  destruct (decide (visit_path v = p)).
  - by rewrite last_snoc.
  - by rewrite app_nil_r.
Qed.

(** In the replayed dictionary a path holds the value of its last visit,
    and what it held before when it was not visited. *)
Lemma getitem_replay p vs d :
  Py.getitem p (replay vs d)
  = match last_value p vs with
    | Some v => Some v
    | None => Py.getitem p d
    end.
Proof.
  induction vs as [|v vs IH] using rev_ind; [done|].
  rewrite replay_snoc, last_value_snoc.
  destruct (decide (visit_path v = p)) as [<-|Hne].
  - apply getitem_setitem_eq.
  - by rewrite getitem_setitem_ne.
Qed.

Lemma NoDup_keys_replay vs d :
  NoDup (Py.keys d) → NoDup (Py.keys (replay vs d)).
Proof.
  intros Hd. induction vs as [|v vs IH] using rev_ind; [done|].
  rewrite replay_snoc. by apply NoDup_keys_setitem.
Qed.

Global Instance records_refl : Reflexive records.
Proof.
  intros st. exists [], []. by rewrite !app_nil_r.
Qed.

Global Instance records_trans : Transitive records.
Proof.
  intros a b c (n1&l1&Hv1&Hs1&Hc1&Hsub1) (n2&l2&Hv2&Hs2&Hc2&Hsub2).
  exists (n1 ++ n2), (l1 ++ l2). split_and!.
  - by rewrite Hv2, Hv1, app_assoc.
  - by rewrite Hs2, Hs1, app_assoc.
  - by rewrite Hc2, Hc1, replay_app.
  - rewrite fmap_app. by apply sublist_app.
Qed.

Lemma records_frame st st' :
  structure st' = structure st → contents st' = contents st →
  visits st' = visits st → records st st'.
Proof.
  intros Hs Hc Hv. exists [], []. by rewrite !app_nil_r.
Qed.

Lemma get_contents_records path st : records st (get_contents path st).2.
Proof. rewrite get_contents_sent. by apply records_frame. Qed.

Lemma process_entry_records rec path prefix count idx x st st' :
  (∀ p q s s', state_of (rec p q s) = Some s' → records s s') →
  state_of (process_entry rec path prefix count idx x st) = Some st' →
  records st st'.
Proof.
  intros Hrec. unfold process_entry.
  set (line := prefix +:+ connector idx count +:+ name x).
  destruct (type x =? "dir")%string.
  - intros (new&lines&Hv&Hs&Hc&Hsub)%Hrec.
    exists new, (line :: lines). split_and!; try done.
    + rewrite Hs. simpl. by rewrite <- app_assoc.
    + by apply sublist_cons.
  - destruct (get_file_content_frame api b64 (url x) (structure_append line st))
      as (Hs&Hc&Hv).
    destruct (get_file_content (url x) _) as [[e|v] st2]; simpl in *;
      intros [= <-].
    + exists [{| visit_line := line; visit_path := full_path_of path x;
                 visit_value := "Error reading file: " +:+ str e |}], [line].
      simpl. by rewrite Hs, Hc, Hv.
    + exists [{| visit_line := line; visit_path := full_path_of path x;
                 visit_value := v |}], [line].
      simpl. by rewrite Hs, Hc, Hv.
Qed.

Lemma process_entries_records rec path prefix count idx items st st' :
  (∀ p q s s', state_of (rec p q s) = Some s' → records s s') →
  state_of (process_entries rec path prefix count idx items st) = Some st' →
  records st st'.
Proof.
  intros Hrec. revert idx st.
  induction items as [|x items IH]; intros idx st; simpl.
  - by intros [= <-].
  - destruct (process_entry rec path prefix count idx x st) as [|e s1|s1] eqn:Hx;
      simpl; try done.
    + intros [= <-]. eapply process_entry_records; [done|]. by rewrite Hx.
    + intros H. etrans; [|by eapply IH].
      eapply process_entry_records; [done|]. by rewrite Hx.
Qed.

Lemma process_path_records fuel path prefix st st' :
  state_of (process_path fuel path prefix st) = Some st' → records st st'.
Proof.
  revert path prefix st st'.
  induction fuel as [|fuel IH]; intros path prefix st st'; simpl; [done|].
  pose proof (get_contents_records path st) as Hg.
  destruct (get_contents path st) as [[e|items] st1]; simpl in *.
  - by intros [= <-].
  - intros H. etrans; [exact Hg|].
    eapply process_entries_records; [|exact H]. apply IH.
Qed.

(** X8. The keys of the content index stay unique over any call, also one
    that ends by raising. *)
Theorem contents_keys_stay_unique fuel path prefix st st' :
  NoDup (Py.keys (contents st)) →
  state_of (process_path fuel path prefix st) = Some st' →
  NoDup (Py.keys (contents st')).
Proof.
  intros Hd (new&_&_&_&->&_)%process_path_records.
  by apply NoDup_keys_replay.
Qed.

(** X9. However [analyze_repo] ends, every file entry it visited has its own
    tree line, in visiting order, and the content index holds for each
    path the value assigned at the last visit of that path: an entry that
    computes the path of an earlier one replaces its value and adds no
    key. *)
Theorem last_visit_wins fuel cache net st' :
  state_of (analyze_repo api b64 str self fuel cache net) = Some st' →
  (visit_line <$> visits st') `sublist_of` structure st'
  ∧ (∀ p, Py.getitem p (contents st') = last_value p (visits st'))
  ∧ NoDup (Py.keys (contents st'))
  ∧ (∀ p, p ∈ Py.keys (contents st') ↔ p ∈ visit_path <$> visits st').
Proof.
  unfold analyze_repo.
  intros (new&lines&Hv&Hs&Hc&Hsub)%process_path_records. simpl in *.
  subst new lines. split; [done|].
  assert (∀ p, Py.getitem p (contents st') = last_value p (visits st')) as Hget.
  { intros p. rewrite Hc, getitem_replay. by destruct (last_value _ _). }
  split; [done|]. split.
  { rewrite Hc. apply NoDup_keys_replay. constructor. }
  intros p. destruct (decide (p ∈ Py.keys (contents st'))) as [Hin|Hout].
  - split; [intros _|done].
    destruct (Py.getitem p (contents st')) as [v|] eqn:Hp.
    + rewrite Hget in Hp. unfold last_value in Hp.
      destruct (last _) as [w|] eqn:Hw; [|done].
      apply last_Some_elem_of, list_elem_of_filter in Hw as [<- Hw].
      by apply list_elem_of_fmap_2.
    + by apply getitem_None in Hp.
  - split; [done|]. intros (w&->&Hw)%list_elem_of_fmap.
    apply getitem_None in Hout. rewrite Hget in Hout. unfold last_value in Hout.
    destruct (last _) as [w'|] eqn:Hl; [done|].
    apply last_None in Hl.
    assert (w ∈ filter (λ v, visit_path v = visit_path w) (visits st')) as Hf
      by (by apply list_elem_of_filter).
    rewrite Hl in Hf. by apply elem_of_nil in Hf.
Qed.

(** *** Directories without subdirectories *)

Lemma process_entries_flat rec path prefix count idx files st :
  Forall (λ g, is_dir g = false) files →
  count = idx + length files →
  ∃ st', process_entries rec path prefix count idx files st = Done st'
    ∧ structure st' = structure st ++ flat_lines prefix files.
Proof.
  intros Hfiles. revert idx st.
  induction Hfiles as [|f files Hf _ IH]; intros idx st Hcount.
  - exists st. by rewrite app_nil_r.
  - simpl. rewrite process_entry_file by done. cbn zeta.
    assert (is_last idx count = is_nil files) as Hlast.
    { unfold is_last. simpl in Hcount.
      destruct files; simpl in *; [apply Z.eqb_eq|apply Z.eqb_neq]; lia. }
    set (line := prefix +:+ connector idx count +:+ name f).
    set (st1 := contents_set line _ _ _).
    destruct (IH (S idx) st1) as (st'&Hrun&Hs).
    { simpl in Hcount. lia. }
    exists st'. split; [done|]. rewrite Hs. subst st1. simpl.
    destruct (get_file_content_frame api b64 (url f) (structure_append line st))
      as (->&_&_).
    simpl. rewrite <- app_assoc. simpl.
    subst line. unfold connector, tree_line. by rewrite Hlast.
Qed.

Lemma process_entries_files_requests rec path prefix count idx files st st' :
  Forall (λ g, is_dir g = false) files →
  process_entries rec path prefix count idx files st = Done st' →
  ∃ us, requests st' = requests st ++ (Download <$> us).
Proof.
  intros Hfiles. revert idx st.
  induction Hfiles as [|f files Hf _ IH]; intros idx st; simpl.
  - intros [= <-]. exists []. by rewrite app_nil_r.
  - rewrite process_entry_file by done. cbn zeta.
    set (s1 := structure_append _ st).
    intros (us&Hus)%IH. simpl in Hus.
    destruct (get_file_content_cases api b64 (url f) s1)
      as [(w&_&Heq)|[(_&e&_&Heq)|(_&_&w&Heq)]]; rewrite Heq in Hus;
      simpl in Hus.
    + by exists us.
    + exists (url f :: us). by rewrite Hus, <- app_assoc.
    + exists (url f :: us). by rewrite Hus, <- app_assoc.
Qed.

(** X10. A directory whose listing returns and names no subdirectory is walked
    to the end whatever its downloads do: the call completes for any fuel,
    appends exactly one tree line per entry, in sorted order with [└── ]
    on the last one, every entry's path is a key of the content index, and
    the only requests are the one listing and then downloads.  An empty
    listing adds no line. *)
Theorem flat_directory_rendering fuel path prefix st listed st0 :
  get_contents path st = (inr listed, st0) →
  Forall (λ g, is_dir g = false) listed →
  ∃ st' us,
    process_path (S fuel) path prefix st = Done st'
    ∧ structure st'
      = structure st
        ++ flat_lines prefix (Py.sorted Py.tuple_lt sort_key listed)
    ∧ (∀ g, g ∈ listed → full_path_of path g ∈ Py.keys (contents st'))
    ∧ requests st'
      = requests st
        ++ Listing (base_url self +:+ "/contents/" +:+ path)
        :: (Download <$> us).
Proof.
  intros Hget Hfiles.
  set (items := Py.sorted Py.tuple_lt sort_key listed).
  assert (items ≡ₚ listed) as Hperm by apply sorted_perm.
  assert (Forall (λ g, is_dir g = false) items) as Hitems
    by (by rewrite Hperm).
  assert (st0 = sent (Listing (base_url self +:+ "/contents/" +:+ path)) st)
    as Hst0.
  { pose proof (get_contents_sent path st) as H. by rewrite Hget in H. }
  destruct (process_entries_flat (process_path fuel) path prefix
    (length items) 0 items st0 Hitems eq_refl) as (st'&Hrun&Hs).
  destruct (process_entries_files api b64 str (process_path fuel) path prefix
    (length items) 0 items st0 Hitems) as (st2&Hrun2&_&Hall).
  rewrite Hrun in Hrun2. injection Hrun2 as <-.
  destruct (process_entries_files_requests _ _ _ _ _ _ _ _ Hitems Hrun)
    as (us&Hus).
  exists st', us. split_and!.
  - simpl. by rewrite Hget.
  - rewrite Hs. by rewrite Hst0.
  - intros g Hg. rewrite <- Hperm in Hg.
    apply list_elem_of_lookup in Hg as [j Hj]. by apply (Hall j g).
  - rewrite Hus, Hst0. simpl. by rewrite <- app_assoc.
Qed.

End Runs.

(** ** The fetcher and whole runs on the demo repository *)

Lemma fetch_twice_hits_cache_witness :
  get_file_content demo_api demo_b64 "u/b.txt" fresh
  = (inr "hi", cache_set "u/b.txt" "hi" (sent (Download "u/b.txt") fresh))
  ∧ get_file_content demo_api demo_b64 "u/b.txt"
      (cache_set "u/b.txt" "hi" (sent (Download "u/b.txt") fresh))
    = (inr "hi", cache_set "u/b.txt" "hi" (sent (Download "u/b.txt") fresh)).
Proof.
  assert (get_file_content demo_api demo_b64 "u/b.txt" fresh
    = (inr "hi", cache_set "u/b.txt" "hi" (sent (Download "u/b.txt") fresh)))
    as H by (vm_compute; reflexivity).
  split; [exact H|].
  exact (proj1 (proj2 (fetch_twice_hits_cache demo_api demo_b64 _ _ _ _ H))).
Defined.

Lemma failed_fetch_is_retried_witness :
  get_file_content demo_api demo_b64 "u/a.txt" fresh
  = (inl (Py.HTTPError 500 "u/a.txt"), sent (Download "u/a.txt") fresh)
  ∧ requests (get_file_content demo_api demo_b64 "u/a.txt"
                (sent (Download "u/a.txt") fresh)).2
    = requests fresh ++ [Download "u/a.txt"; Download "u/a.txt"].
Proof.
  assert (get_file_content demo_api demo_b64 "u/a.txt" fresh
    = (inl (Py.HTTPError 500 "u/a.txt"), sent (Download "u/a.txt") fresh))
    as H by (vm_compute; reflexivity).
  split; [exact H|].
  exact (proj2 (proj2 (proj2
    (failed_fetch_is_retried demo_api demo_b64 _ _ _ _ H)))).
Defined.



Lemma listing_failure_aborts_witness :
  demo_walk 1 "y" "" fresh
  = Raised (Py.HTTPError 404 (demo_root_url +:+ "y"))
      (sent (Listing (demo_root_url +:+ "y")) fresh)
  ∧ returned (demo_walk 1 "y" "" fresh)
    = Some (inl (Py.HTTPError 404 (demo_root_url +:+ "y"))).
Proof.
  apply (listing_failure_aborts demo_api demo_b64 demo_str demo_self 0 "y" ""
    fresh (Py.HTTPError 404 (demo_root_url +:+ "y"))).
  vm_compute; reflexivity.
Defined.


Lemma completed_run_listings_returned_witness :
  demo_walk 2 "" "" fresh = Done demo_final
  ∧ listings_ok demo_api (length (requests fresh)) (requests demo_final).
Proof.
  split; [vm_compute; reflexivity|].
  apply (completed_run_listings_returned demo_api demo_b64 demo_str demo_self
    2 "" "").
  vm_compute; reflexivity.
Defined.

Lemma contents_keys_stay_unique_witness :
  NoDup (Py.keys (contents fresh))
  ∧ state_of (demo_walk 2 "" "" fresh) = Some demo_final
  ∧ NoDup (Py.keys (contents demo_final)).
Proof.
  split; [apply NoDup_nil_2|]. split; [vm_compute; reflexivity|].
  apply (contents_keys_stay_unique demo_api demo_b64 demo_str demo_self
    2 "" "" fresh demo_final).
  - apply NoDup_nil_2.
  - vm_compute; reflexivity.
Defined.

Lemma last_visit_wins_witness :
  state_of (analyze_repo demo_api demo_b64 demo_str demo_self 2 ∅ [])
  = Some demo_final
  ∧ (∀ p, Py.getitem p (contents demo_final)
          = last_value p (visits demo_final)).
Proof.
  assert (state_of (analyze_repo demo_api demo_b64 demo_str demo_self 2 ∅ [])
    = Some demo_final) as H by (vm_compute; reflexivity).
  split; [exact H|].
  exact (proj1 (proj2
    (last_visit_wins demo_api demo_b64 demo_str demo_self 2 ∅ [] _ H))).
Defined.

Lemma flat_directory_rendering_witness :
  get_contents demo_api demo_self "z" fresh
  = (inr [demo_c], sent (Listing (demo_root_url +:+ "z")) fresh)
  ∧ ∃ st' us,
      demo_walk 1 "z" "│   " fresh = Done st'
      ∧ structure st'
        = structure fresh
          ++ flat_lines "│   " (Py.sorted Py.tuple_lt sort_key [demo_c])
      ∧ (∀ g, g ∈ [demo_c] →
           full_path_of "z" g ∈ Py.keys (contents st'))
      ∧ requests st'
        = requests fresh
          ++ Listing (base_url demo_self +:+ "/contents/" +:+ "z")
          :: (Download <$> us).
Proof.
  assert (get_contents demo_api demo_self "z" fresh
    = (inr [demo_c], sent (Listing (demo_root_url +:+ "z")) fresh))
    as H by (vm_compute; reflexivity).
  split; [exact H|].
  apply (flat_directory_rendering demo_api demo_b64 demo_str demo_self 0 "z"
    "│   " fresh [demo_c] _ H).
  repeat constructor.
Defined.

(** ** Texts *)

Section StringFacts.

Lemma string_app_cons x (a b : string) : String x a +:+ b = String x (a +:+ b).
Proof. reflexivity. Qed.

Lemma string_app_nil_l (b : string) : "" +:+ b = b.
Proof. reflexivity. Qed.

Lemma string_app_assoc (a b c : string) : (a +:+ b) +:+ c = a +:+ (b +:+ c).
Proof. induction a as [|x a IH]; [done|]. rewrite !string_app_cons. congruence. Qed.

Lemma string_app_nil_r (a : string) : a +:+ "" = a.
Proof. induction a as [|x a IH]; [done|]. rewrite !string_app_cons. congruence. Qed.

Lemma string_length_app (a b : string) :
  String.length (a +:+ b) = String.length a + String.length b.
Proof.
  induction a as [|x a IH]; [done|]. rewrite string_app_cons. simpl. congruence.
Qed.

Lemma substring_app_l (a b : string) :
  String.substring 0 (String.length a) (a +:+ b) = a.
Proof.
  induction a as [|x a IH]; [by destruct b|].
  rewrite string_app_cons. simpl. congruence.
Qed.

Lemma consumed_app (t s' : string) : Re.consumed (t +:+ s') s' = t.
Proof.
  unfold Re.consumed. rewrite string_length_app.
  replace (String.length t + String.length s' - String.length s')
    with (String.length t) by lia.
  apply substring_app_l.
Qed.

Lemma strip_prefix_Some l s s' :
  Re.strip_prefix l s = Some s' ↔ s = l +:+ s'.
Proof.
  revert s. induction l as [|a l IH]; intros s; simpl.
  - split; [by intros [= ->]|by intros ->].
  - destruct s as [|b s]; [done|].
    destruct (Ascii.eqb_spec a b) as [->|Hne].
    + rewrite IH. split; [by intros ->|by intros [= ->]].
    + split; [done|]. intros [= ? ?]. done.
Qed.

Lemma strip_prefix_app l s : Re.strip_prefix l (l +:+ s) = Some s.
Proof. by apply strip_prefix_Some. Qed.

Lemma plus_class_elem p s s' :
  s' ∈ Re.plus_class p s →
  ∃ t, s = t +:+ s' ∧ t ≠ "" ∧ all_chars p t = true.
Proof.
  revert s'. induction s as [|c s IH]; intros s'; simpl.
  - by intros ?%elem_of_nil.
  - destruct (p c) eqn:Hc; [|by intros ?%elem_of_nil].
    intros [Hin| ->%list_elem_of_singleton]%elem_of_app.
    + destruct (IH _ Hin) as (t&->&Ht&Hall).
      exists (String c t). simpl. by rewrite Hc, Hall.
    + exists (String c ""). simpl. by rewrite Hc.
Qed.

(** The greedy choice: a run of [p] that a non-[p] character or the end
    of the text stops is consumed whole first. *)
Lemma plus_class_head p t rest :
  t ≠ "" → all_chars p t = true →
  match rest with EmptyString => true | String c _ => negb (p c) end = true →
  ∃ others, Re.plus_class p (t +:+ rest) = rest :: others.
Proof.
  intros Ht Hall Hrest. induction t as [|c t IH]; [done|].
  simpl in Hall. apply andb_true_iff in Hall as [Hc Hall].
  rewrite string_app_cons. simpl. rewrite Hc.
  destruct t as [|c' t].
  - rewrite string_app_nil_l. exists [].
    destruct rest as [|d rest]; simpl; [done|].
    apply negb_true_iff in Hrest. by rewrite Hrest.
  - destruct IH as (others&->); [done|done|].
    by exists (others ++ [String c' t +:+ rest]).
Qed.

Lemma all_chars_not_slash s :
  all_chars (Re.in_class true ["/"%char]) s = free_of "/" s.
Proof.
  induction s as [|c s IH]; simpl; [done|]. rewrite IH. f_equal.
  unfold Re.in_class. simpl. by rewrite orb_false_r.
Qed.

Lemma all_chars_not_slash_dot s :
  all_chars (Re.in_class true ["/"; "."]%char) s
  = free_of "/" s && free_of "." s.
Proof.
  induction s as [|c s IH]; simpl; [done|]. rewrite IH.
  unfold Re.in_class. simpl. rewrite orb_false_r.
  by destruct (Ascii.eqb c "/"), (Ascii.eqb c "."), (free_of "/" s),
    (free_of "." s).
Qed.

Lemma ends_with_app c a b : b ≠ "" → ends_with c (a +:+ b) = ends_with c b.
Proof.
  intros Hb. induction a as [|x a IH]; [done|].
  rewrite string_app_cons. simpl.
  rewrite IH. destruct (a +:+ b) eqn:Hab; [|done].
  destruct a; [done|discriminate].
Qed.

Lemma ends_with_free c s : s ≠ "" → free_of c s = true → ends_with c s = false.
Proof.
  intros Hs Hfree. induction s as [|x s IH]; [done|].
  simpl in *. apply andb_true_iff in Hfree as [Hx Hfree].
  destruct s as [|y s]; [by apply negb_true_iff|]. by apply IH.
Qed.

Lemma free_of_app c a b : free_of c (a +:+ b) = free_of c a && free_of c b.
Proof.
  induction a as [|x a IH]; [done|].
  rewrite string_app_cons. simpl. by rewrite IH, andb_assoc.
Qed.

Lemma count_char_app c a b :
  count_char c (a +:+ b) = count_char c a + count_char c b.
Proof.
  induction a as [|x a IH]; [done|].
  rewrite string_app_cons. simpl. rewrite IH. lia.
Qed.

Lemma free_of_count c s : free_of c s = true → count_char c s = 0.
Proof.
  induction s as [|x s IH]; [done|]. simpl.
  intros [Hx Hs]%andb_true_iff. apply negb_true_iff in Hx.
  rewrite Hx. by rewrite IH.
Qed.

(** A text has one last occurrence of a character. *)
Lemma split_last c a b a' b' :
  free_of c b = true → free_of c b' = true →
  a +:+ String c b = a' +:+ String c b' → a = a' ∧ b = b'.
Proof.
  intros Hb Hb'. revert a'.
  assert (∀ x y, free_of c (x +:+ String c y) = false) as Hin.
  { intros x y. rewrite free_of_app. simpl. rewrite Ascii.eqb_refl. simpl.
    apply andb_false_r. }
  induction a as [|x a IH]; intros [|x' a'].
  - rewrite !string_app_nil_l. by intros [= ->].
  - rewrite string_app_nil_l, string_app_cons. intros [= -> ->].
    by rewrite Hin in Hb.
  - rewrite string_app_nil_l, string_app_cons. intros [= -> <-].
    by rewrite Hin in Hb'.
  - rewrite !string_app_cons. intros [= -> H]. by destruct (IH _ H) as [-> ->].
Qed.

Lemma string_app_inv_r (a b c : string) : a +:+ c = b +:+ c → a = b.
Proof.
  revert b. induction a as [|x a IH]; intros [|y b]; [done| | |].
  - intros H%(f_equal String.length).
    rewrite string_app_nil_l, string_length_app in H. simpl in H. lia.
  - intros H%(f_equal String.length).
    rewrite string_app_nil_l, string_length_app in H. simpl in H. lia.
  - rewrite !string_app_cons. intros [= -> H]. by rewrite (IH _ H).
Qed.

End StringFacts.

(** ** What a match of the two patterns looks like *)

Section Matcher.

Lemma elem_of_matches_Lit l s m :
  m ∈ Re.matches (Re.Lit l) s ↔ m.1 = [] ∧ s = l +:+ m.2.
Proof.
  simpl. destruct (Re.strip_prefix l s) as [s'|] eqn:Hs.
  - apply strip_prefix_Some in Hs as ->. rewrite list_elem_of_singleton.
    destruct m as [g rest]; simpl. split.
    + by intros [= -> ->].
    + intros [-> ->%(inj _)]. done.
  - split; [by intros ?%elem_of_nil|]. intros [_ ->].
    by rewrite strip_prefix_app in Hs.
Qed.

Lemma elem_of_matches_Class neg cs s m :
  m ∈ Re.matches (Re.Class neg cs) s →
  ∃ c, Re.in_class neg cs c = true ∧ m.1 = [] ∧ s = String c m.2.
Proof.
  simpl. destruct s as [|c s]; [by intros ?%elem_of_nil|].
  destruct (Re.in_class neg cs c) eqn:Hc; [|by intros ?%elem_of_nil].
  intros ->%list_elem_of_singleton. by exists c.
Qed.

Lemma elem_of_matches_Cat r1 r2 s m :
  m ∈ Re.matches (Re.Cat r1 r2) s ↔
  ∃ m1 m2, m1 ∈ Re.matches r1 s ∧ m2 ∈ Re.matches r2 m1.2
    ∧ m = (m1.1 ++ m2.1, m2.2).
Proof.
  simpl. rewrite list_elem_of_bind. split.
  - intros (m1&(m2&->&H2)%list_elem_of_fmap&H1). by exists m1, m2.
  - intros (m1&m2&H1&H2&->). exists m1. split; [|done].
    apply list_elem_of_fmap. by exists m2.
Qed.

Lemma elem_of_matches_group_plus neg cs s m :
  m ∈ Re.matches (Re.Group (Re.PlusClass neg cs)) s →
  ∃ t, m.1 = [t] ∧ s = t +:+ m.2 ∧ t ≠ ""
    ∧ all_chars (Re.in_class neg cs) t = true.
Proof.
  simpl. intros (m'&->&(s'&->&Hs')%list_elem_of_fmap)%list_elem_of_fmap.
  simpl. destruct (plus_class_elem _ _ _ Hs') as (t&->&Ht&Hall).
  exists t. by rewrite consumed_app.
Qed.

Lemma elem_of_matches_tail l s m :
  m ∈ Re.matches (Re.Cat (Re.Opt (Re.Lit l)) Re.Dollar) s →
  m.1 = [] ∧ (s = m.2 ∨ s = l +:+ m.2) ∧ (m.2 = "" ∨ m.2 = Py.nl).
Proof.
  intros (m1&m2&H1&H2&->)%elem_of_matches_Cat. simpl in H1, H2.
  assert (m2.1 = [] ∧ m2.2 = m1.2 ∧ (m1.2 = "" ∨ m1.2 = Py.nl))
    as (Hg&Hrest&Hend).
  { unfold Re.at_end in H2.
    destruct (String.eqb_spec m1.2 "") as [He|_]; simpl in H2.
    - apply list_elem_of_singleton in H2 as ->. auto.
    - destruct (String.eqb_spec m1.2 Py.nl) as [He|_]; simpl in H2.
      + apply list_elem_of_singleton in H2 as ->. auto.
      + by apply elem_of_nil in H2. }
  simpl. rewrite Hg, Hrest.
  apply elem_of_app in H1 as [H1| ->%list_elem_of_singleton].
  - assert (m1 ∈ Re.matches (Re.Lit l) s) as [-> ->]%elem_of_matches_Lit
      by done.
    auto.
  - simpl in *. auto.
Qed.

Lemma pattern_ssh_inv s m :
  m ∈ Re.matches pattern_ssh s →
  ∃ c g1 g2 tail,
    s = "github.com" +:+ String c (g1 +:+ "/" +:+ g2 +:+ tail)
    ∧ m.1 = [g1; g2]
    ∧ (c = ":"%char ∨ c = "/"%char)
    ∧ g1 ≠ "" ∧ free_of "/" g1 = true
    ∧ g2 ≠ "" ∧ free_of "/" g2 = true ∧ free_of "." g2 = true
    ∧ (tail = "" ∨ tail = Py.nl ∨ tail = ".git" ∨ tail = ".git" +:+ Py.nl).
Proof.
  unfold pattern_ssh.
  intros (m1&m2&[Hm1 ->]%elem_of_matches_Lit&H2&->)%elem_of_matches_Cat.
  apply elem_of_matches_Cat in H2 as (m3&m4&H3&H4&->).
  apply elem_of_matches_Class in H3 as (c&Hc&Hm3&Hs3).
  assert (c = ":"%char ∨ c = "/"%char) as Hsep.
  { unfold Re.in_class in Hc. simpl in Hc.
    destruct (Ascii.eqb_spec c ":") as [?|_]; [by left|].
    destruct (Ascii.eqb_spec c "/") as [?|_]; [by right|done]. }
  apply elem_of_matches_Cat in H4 as (m5&m6&H5&H6&->).
  apply elem_of_matches_group_plus in H5 as (g1&Hm5&Hs5&Hg1&Hall1).
  apply elem_of_matches_Cat in H6 as (m7&m8&[Hm7 Hs7]%elem_of_matches_Lit&H8&->).
  apply elem_of_matches_Cat in H8 as (m9&m10&H9&H10&->).
  apply elem_of_matches_group_plus in H9 as (g2&Hm9&Hs9&Hg2&Hall2).
  apply elem_of_matches_tail in H10 as (Hm10&Htail&Hend).
  rewrite all_chars_not_slash in Hall1.
  rewrite all_chars_not_slash_dot in Hall2.
  apply andb_true_iff in Hall2 as [Hs2 Hd2].
  exists c, g1, g2, m9.2. simpl.
  rewrite Hm1, Hm3, Hm5, Hm7, Hm9, Hm10, Hs3, Hs5, Hs7, Hs9. simpl.
  split_and!; try done.
  destruct Htail as [->| ->], Hend as [->| ->]; auto.
Qed.

Lemma pattern_web_inv s m :
  m ∈ Re.matches pattern_web s →
  ∃ g1 g2 tail,
    s = "github.com/" +:+ g1 +:+ "/" +:+ g2 +:+ tail
    ∧ m.1 = [g1; g2]
    ∧ g1 ≠ "" ∧ free_of "/" g1 = true
    ∧ g2 ≠ "" ∧ free_of "/" g2 = true
    ∧ (tail = "" ∨ tail = Py.nl ∨ tail = "/" ∨ tail = "/" +:+ Py.nl).
Proof.
  unfold pattern_web.
  intros (m1&m2&[Hm1 ->]%elem_of_matches_Lit&H2&->)%elem_of_matches_Cat.
  apply elem_of_matches_Cat in H2 as (m5&m6&H5&H6&->).
  apply elem_of_matches_group_plus in H5 as (g1&Hm5&Hs5&Hg1&Hall1).
  apply elem_of_matches_Cat in H6 as (m7&m8&[Hm7 Hs7]%elem_of_matches_Lit&H8&->).
  apply elem_of_matches_Cat in H8 as (m9&m10&H9&H10&->).
  apply elem_of_matches_group_plus in H9 as (g2&Hm9&Hs9&Hg2&Hall2).
  apply elem_of_matches_tail in H10 as (Hm10&Htail&Hend).
  rewrite all_chars_not_slash in Hall1, Hall2.
  exists g1, g2, m9.2. simpl.
  rewrite Hm1, Hm5, Hm7, Hm9, Hm10, Hs5, Hs7, Hs9. simpl.
  split_and!; try done.
  destruct Htail as [->| ->], Hend as [->| ->]; auto.
Qed.

Lemma search_Some r s g :
  Re.search r s = Some g →
  ∃ pre s' m, s = pre +:+ s' ∧ m ∈ Re.matches r s' ∧ m.1 = g.
Proof.
  induction s as [|c s IH]; simpl.
  - destruct (Re.matches r "") as [|m ms] eqn:Hm; [done|].
    intros [= <-]. exists "", "", m. rewrite Hm. split_and!; [done| |done].
    apply list_elem_of_here.
  - destruct (Re.matches r (String c s)) as [|m ms] eqn:Hm.
    + intros (pre&s'&m&->&Hin&Hg)%IH. by exists (String c pre), s', m.
    + intros [= <-]. exists "", (String c s), m. rewrite Hm.
      split_and!; [done| |done]. apply list_elem_of_here.
Qed.

Lemma occurs_app lit pre rest : occurs lit (pre +:+ lit +:+ rest) = true.
Proof.
  induction pre as [|c pre IH].
  - rewrite string_app_nil_l.
    destruct (lit +:+ rest) eqn:Hs; simpl; rewrite <- Hs;
      by rewrite strip_prefix_app.
  - rewrite string_app_cons. simpl.
    by destruct (Re.strip_prefix lit _).
Qed.

End Matcher.

(** ** The first match the backtracking finds *)

Section FirstMatch.

Lemma head_matches_Lit l s :
  head (Re.matches (Re.Lit l) (l +:+ s)) = Some ([], s).
Proof. simpl. by rewrite strip_prefix_app. Qed.

Lemma head_matches_Cat r1 r2 s m1 m2 :
  head (Re.matches r1 s) = Some m1 →
  head (Re.matches r2 m1.2) = Some m2 →
  head (Re.matches (Re.Cat r1 r2) s) = Some (m1.1 ++ m2.1, m2.2).
Proof.
  simpl. destruct (Re.matches r1 s) as [|x t1]; [done|]. intros [= ->].
  simpl. by destruct (Re.matches r2 m1.2) as [|y t2]; [|intros [= ->]].
Qed.

Lemma head_matches_group_plus neg cs t rest :
  t ≠ "" → all_chars (Re.in_class neg cs) t = true →
  match rest with
  | EmptyString => true
  | String c _ => negb (Re.in_class neg cs c)
  end = true →
  head (Re.matches (Re.Group (Re.PlusClass neg cs)) (t +:+ rest))
  = Some ([t], rest).
Proof.
  intros Ht Hall Hrest. simpl.
  destruct (plus_class_head _ _ _ Ht Hall Hrest) as (others&->). simpl.
  by rewrite consumed_app.
Qed.

Lemma head_matches_tail_plain l :
  head (Re.matches (Re.Cat (Re.Opt (Re.Lit l)) Re.Dollar) "") = Some ([], "").
Proof. simpl. by destruct l. Qed.

Lemma head_matches_tail_opt l :
  head (Re.matches (Re.Cat (Re.Opt (Re.Lit l)) Re.Dollar) l) = Some ([], "").
Proof.
  apply (head_matches_Cat _ _ _ ([], "") ([], "")); [|done].
  assert (Re.strip_prefix l l = Some "") as H
    by (apply strip_prefix_Some; by rewrite string_app_nil_r).
  simpl. by rewrite H.
Qed.

Lemma search_head r s m : head (Re.matches r s) = Some m → Re.search r s = Some m.1.
Proof.
  destruct s; simpl; by destruct (Re.matches r _) as [|x t]; [|intros [= ->]].
Qed.

Lemma pattern_ssh_head c o r tail :
  c = ":"%char ∨ c = "/"%char →
  o ≠ "" → free_of "/" o = true →
  r ≠ "" → free_of "/" r = true → free_of "." r = true →
  tail = "" ∨ tail = ".git" →
  head (Re.matches pattern_ssh
          ("github.com" +:+ String c (o +:+ "/" +:+ r +:+ tail)))
  = Some ([o; r], "").
Proof.
  intros Hc Ho Hso Hr Hsr Hdr Htail. unfold pattern_ssh.
  eapply (head_matches_Cat _ _ _ ([], _) ([o; r], ""));
    [apply head_matches_Lit|].
  eapply (head_matches_Cat _ _ _ ([], _) ([o; r], ""));
    [by destruct Hc as [->| ->]|].
  eapply (head_matches_Cat _ _ _ ([o], _) ([r], "")).
  { apply head_matches_group_plus; [done|by rewrite all_chars_not_slash|done]. }
  eapply (head_matches_Cat _ _ _ ([], _) ([r], ""));
    [apply head_matches_Lit|].
  eapply (head_matches_Cat _ _ _ ([r], _) ([], "")).
  { apply head_matches_group_plus; [done| |by destruct Htail as [->| ->]].
    rewrite all_chars_not_slash_dot. by rewrite Hsr, Hdr. }
  destruct Htail as [->| ->];
    [apply head_matches_tail_plain|apply head_matches_tail_opt].
Qed.

Lemma pattern_web_head o r tail :
  o ≠ "" → free_of "/" o = true →
  r ≠ "" → free_of "/" r = true →
  tail = "" ∨ tail = "/" →
  head (Re.matches pattern_web ("github.com/" +:+ o +:+ "/" +:+ r +:+ tail))
  = Some ([o; r], "").
Proof.
  intros Ho Hso Hr Hsr Htail. unfold pattern_web.
  eapply (head_matches_Cat _ _ _ ([], _) ([o; r], ""));
    [apply head_matches_Lit|].
  eapply (head_matches_Cat _ _ _ ([o], _) ([r], "")).
  { apply head_matches_group_plus; [done|by rewrite all_chars_not_slash|done]. }
  eapply (head_matches_Cat _ _ _ ([], _) ([r], ""));
    [apply head_matches_Lit|].
  eapply (head_matches_Cat _ _ _ ([r], _) ([], "")).
  { apply head_matches_group_plus; [done| |by destruct Htail as [->| ->]].
    by rewrite all_chars_not_slash. }
  destruct Htail as [->| ->];
    [apply head_matches_tail_plain|apply head_matches_tail_opt].
Qed.

(** No match of either pattern starts inside [https://] or [git@]. *)
Lemma search_ssh_https s :
  Re.search pattern_ssh ("https://" +:+ s) = Re.search pattern_ssh s.
Proof. reflexivity. Qed.

Lemma search_web_https s :
  Re.search pattern_web ("https://" +:+ s) = Re.search pattern_web s.
Proof. reflexivity. Qed.

Lemma search_ssh_git_at s :
  Re.search pattern_ssh ("git@" +:+ s) = Re.search pattern_ssh s.
Proof. reflexivity. Qed.

(** The first pattern ends in a repository character or in [.git]: it
    matches no text that ends with a slash. *)
Lemma pattern_ssh_trailing_slash s :
  ends_with "/" s = true → Re.matches pattern_ssh s = [].
Proof.
  intros Hs. destruct (Re.matches pattern_ssh s) as [|m ms] eqn:Hm; [done|].
  destruct (pattern_ssh_inv s m)
    as (c&g1&g2&tail&->&_&_&_&_&Hg2&Hs2&_&Htail).
  { rewrite Hm. apply list_elem_of_here. }
  exfalso.
  assert (ends_with "/" (g2 +:+ tail) = false) as Hend.
  { destruct Htail as [->|[->|[->| ->]]].
    - rewrite string_app_nil_r. by apply ends_with_free.
    - by rewrite ends_with_app.
    - by rewrite ends_with_app.
    - by rewrite ends_with_app. }
  change ("github.com" +:+ String c (g1 +:+ "/" +:+ g2 +:+ tail))
    with (("github.com" +:+ String c "") +:+ g1 +:+ "/" +:+ g2 +:+ tail) in Hs.
  rewrite (ends_with_app _ ("github.com" +:+ String c "")) in Hs
    by (by destruct g1).
  rewrite (ends_with_app _ g1), (ends_with_app _ "/") in Hs
    by (done || by destruct g2).
  congruence.
Qed.

Lemma search_None_ends c r s :
  (∀ s', ends_with c s' = true → Re.matches r s' = []) →
  Re.matches r "" = [] →
  ends_with c s = true → Re.search r s = None.
Proof.
  intros Hr H0. induction s as [|x s IH]; [done|]. intros Hs.
  simpl. rewrite (Hr _ Hs).
  destruct s as [|y s]; [simpl; by rewrite H0|]. by apply IH.
Qed.

End FirstMatch.


(** ** The locator parser and the constructor *)

Section Parser.

(** What a successful search of the two patterns has found. *)
Lemma first_match_inv url groups :
  first_match [pattern_ssh; pattern_web] url = Some groups →
  ∃ pre c o r tail,
    groups = [o; r]
    ∧ url = pre +:+ "github.com" +:+ String c (o +:+ "/" +:+ r +:+ tail)
    ∧ (c = ":"%char ∨ c = "/"%char)
    ∧ o ≠ "" ∧ free_of "/" o = true
    ∧ r ≠ "" ∧ free_of "/" r = true
    ∧ tail ∈ [""; Py.nl; ".git"; ".git" +:+ Py.nl; "/"; "/" +:+ Py.nl].
Proof.
  simpl. destruct (Re.search pattern_ssh url) as [g|] eqn:Hssh.
  - intros [= <-].
    apply search_Some in Hssh as (pre&s'&m&->&Hm&<-).
    apply pattern_ssh_inv in Hm
      as (c&g1&g2&tail&->&->&Hc&Hg1&Hs1&Hg2&Hs2&_&Htail).
    exists pre, c, g1, g2, tail. split_and!; try done.
    destruct Htail as [->|[->|[->| ->]]];
      repeat first [apply list_elem_of_here|apply list_elem_of_further].
  - destruct (Re.search pattern_web url) as [g|] eqn:Hweb; [|done].
    intros [= <-].
    apply search_Some in Hweb as (pre&s'&m&->&Hm&<-).
    apply pattern_web_inv in Hm as (g1&g2&tail&->&->&Hg1&Hs1&Hg2&Hs2&Htail).
    exists pre, "/"%char, g1, g2, tail. split_and!; try done; [by right|].
    destruct Htail as [->|[->|[->| ->]]];
      repeat first [apply list_elem_of_here|apply list_elem_of_further].
Qed.


(** X11. Whatever the parser returns was read off the text as it stands: the
    result is a pair, the text holds [github.com], a colon or a slash,
    the owner, a slash, the repository and then nothing but an optional
    [.git] or slash and an optional final newline; owner and repository
    are not empty and hold no slash. *)
Theorem parsed_url_shape url groups :
  _parse_github_url url = inr groups →
  ∃ pre c o r tail,
    groups = [o; r]
    ∧ url = pre +:+ "github.com" +:+ String c (o +:+ "/" +:+ r +:+ tail)
    ∧ (c = ":"%char ∨ c = "/"%char)
    ∧ o ≠ "" ∧ free_of "/" o = true
    ∧ r ≠ "" ∧ free_of "/" r = true
    ∧ tail ∈ [""; Py.nl; ".git"; ".git" +:+ Py.nl; "/"; "/" +:+ Py.nl].
Proof.
  unfold _parse_github_url.
  destruct (first_match _ url) as [g|] eqn:Hg; [|done].
  intros [= <-]. by apply first_match_inv.
Qed.

(** X12. A text in which [github.com] does not occur is rejected with the
    message on the expected format, by the parser and so by the
    constructor. *)
Theorem url_without_host_rejected token url :
  occurs "github.com" url = false →
  _parse_github_url url = inl (Py.ValueError invalid_url_message)
  ∧ init token url = inl (Py.ValueError invalid_url_message).
Proof.
  intros Hocc.
  assert (_parse_github_url url = inl (Py.ValueError invalid_url_message))
    as Hparse.
  { unfold _parse_github_url.
    destruct (first_match _ url) as [g|] eqn:Hg; [|done].
    apply first_match_inv in Hg as (pre&c&o&r&tail&_&->&_).
    by rewrite occurs_app in Hocc. }
  split; [done|]. unfold init. by rewrite Hparse.
Qed.

(** X13. The constructor fails only with the parser's [ValueError], never on
    unpacking the parser's result; when it succeeds the cache is empty,
    owner and repository are the two groups of the parse, not empty and
    free of slashes, and the base locator and the credential header are
    built from them and from the token. *)
Theorem init_builds_analyzer token url :
  match init token url with
  | inl e =>
      e = Py.ValueError invalid_url_message ∧ _parse_github_url url = inl e
  | inr (self, cache) =>
      cache = ∅
      ∧ _parse_github_url url = inr [owner self; repo self]
      ∧ headers self = "token " +:+ token
      ∧ base_url self
        = "https://api.github.com/repos/" +:+ owner self +:+ "/" +:+ repo self
      ∧ owner self ≠ "" ∧ free_of "/" (owner self) = true
      ∧ repo self ≠ "" ∧ free_of "/" (repo self) = true
  end.
Proof.
  unfold init, _parse_github_url.
  destruct (first_match _ url) as [g|] eqn:Hg; [|done].
  apply first_match_inv in Hg as (pre&c&o&r&tail&->&_&_&Ho&Hso&Hr&Hsr&_).
  by simpl.
Qed.

(** X14. For an owner without a slash and a repository name without a slash
    or a dot, the web form, the web form with [.git], the SSH form with
    [.git] and the SSH form without it all parse to the owner and the
    name, [.git] removed. *)
Theorem parse_accepts_documented_forms o r :
  o ≠ "" → free_of "/" o = true →
  r ≠ "" → free_of "/" r = true → free_of "." r = true →
  _parse_github_url ("https://github.com/" +:+ o +:+ "/" +:+ r) = inr [o; r]
  ∧ _parse_github_url ("https://github.com/" +:+ o +:+ "/" +:+ r +:+ ".git")
    = inr [o; r]
  ∧ _parse_github_url ("git@github.com:" +:+ o +:+ "/" +:+ r +:+ ".git")
    = inr [o; r]
  ∧ _parse_github_url ("git@github.com:" +:+ o +:+ "/" +:+ r) = inr [o; r].
Proof.
  intros Ho Hso Hr Hsr Hdr.
  assert (∀ c tail, c = ":"%char ∨ c = "/"%char → tail = "" ∨ tail = ".git" →
    Re.search pattern_ssh
      ("github.com" +:+ String c (o +:+ "/" +:+ r +:+ tail)) = Some [o; r])
    as Hssh.
  { intros c tail Hc Htail.
    by rewrite (search_head _ _ _ (pattern_ssh_head _ _ _ _ Hc Ho Hso Hr Hsr
      Hdr Htail)). }
  unfold _parse_github_url, first_match. split_and!.
  - change ("https://github.com/" +:+ o +:+ "/" +:+ r)
      with ("https://" +:+ "github.com" +:+ String "/" (o +:+ "/" +:+ r)).
    rewrite search_ssh_https. rewrite <- (string_app_nil_r r) at 1.
    by rewrite Hssh by auto.
  - change ("https://github.com/" +:+ o +:+ "/" +:+ r +:+ ".git")
      with ("https://" +:+ "github.com"
            +:+ String "/" (o +:+ "/" +:+ r +:+ ".git")).
    rewrite search_ssh_https. by rewrite Hssh by auto.
  - change ("git@github.com:" +:+ o +:+ "/" +:+ r +:+ ".git")
      with ("git@" +:+ "github.com"
            +:+ String ":" (o +:+ "/" +:+ r +:+ ".git")).
    rewrite search_ssh_git_at. by rewrite Hssh by auto.
  - change ("git@github.com:" +:+ o +:+ "/" +:+ r)
      with ("git@" +:+ "github.com" +:+ String ":" (o +:+ "/" +:+ r)).
    rewrite search_ssh_git_at. rewrite <- (string_app_nil_r r) at 1.
    by rewrite Hssh by auto.
Qed.

(** X15. The web form with a final slash parses to the owner and the name
    verbatim for every name without a slash: dots are kept, and so is a
    [.git] at the end of the name. *)
Theorem parse_trailing_slash_keeps_name o r :
  o ≠ "" → free_of "/" o = true →
  r ≠ "" → free_of "/" r = true →
  _parse_github_url ("https://github.com/" +:+ o +:+ "/" +:+ r +:+ "/")
  = inr [o; r].
Proof.
  intros Ho Hso Hr Hsr. unfold _parse_github_url, first_match.
  rewrite (search_None_ends "/" pattern_ssh).
  - change ("https://github.com/" +:+ o +:+ "/" +:+ r +:+ "/")
      with ("https://" +:+ "github.com/" +:+ o +:+ "/" +:+ r +:+ "/").
    rewrite search_web_https.
    by rewrite (search_head _ _ ([o; r], "")) by (by apply pattern_web_head; auto).
  - apply pattern_ssh_trailing_slash.
  - done.
  - rewrite (ends_with_app _ "https://github.com/") by (by destruct o).
    rewrite (ends_with_app _ o), (ends_with_app _ "/"), (ends_with_app _ r);
      done || by destruct r.
Qed.

End Parser.

(** ** Repository names with dots *)

Section DottedNames.

Lemma search_None r s :
  (∀ pre s', s = pre +:+ s' → Re.matches r s' = []) → Re.search r s = None.
Proof.
  induction s as [|c s IH]; intros H; simpl.
  - by rewrite (H "" "").
  - rewrite (H "" (String c s)) by done. apply IH.
    intros pre s' ->. by apply (H (String c pre)).
Qed.

(** The first pattern matches nowhere in a text whose part after the last
    slash is not a dot-free name followed by one of the pattern's ends. *)
Lemma search_ssh_None a last :
  free_of "/" last = true →
  (∀ g2 tail, last = g2 +:+ tail → g2 ≠ "" → free_of "." g2 = true →
     tail = "" ∨ tail = Py.nl ∨ tail = ".git" ∨ tail = ".git" +:+ Py.nl →
     False) →
  Re.search pattern_ssh (a +:+ "/" +:+ last) = None.
Proof.
  intros Hlast Hno. apply search_None. intros pre s' Hurl.
  destruct (Re.matches pattern_ssh s') as [|m ms] eqn:Hm; [done|]. exfalso.
  destruct (pattern_ssh_inv s' m)
    as (c&g1&g2&tail&->&_&_&_&_&Hg2&Hs2&Hd2&Htail).
  { rewrite Hm. apply list_elem_of_here. }
  assert (free_of "/" (g2 +:+ tail) = true) as Hfree.
  { rewrite free_of_app, Hs2. by destruct Htail as [->|[->|[->| ->]]]. }
  assert (pre +:+ "github.com" +:+ String c (g1 +:+ "/" +:+ g2 +:+ tail)
    = (pre +:+ "github.com" +:+ String c g1) +:+ String "/" (g2 +:+ tail))
    as Hassoc by (by rewrite !string_app_assoc).
  rewrite Hassoc in Hurl.
  apply (split_last "/" _ _ _ _ Hlast Hfree) in Hurl as [_ ->].
  by apply (Hno g2 tail).
Qed.

(** The second pattern matches nowhere in a text with a single slash. *)
Lemma search_web_None s :
  count_char "/" s < 2 → Re.search pattern_web s = None.
Proof.
  intros Hs. apply search_None. intros pre s' ->.
  destruct (Re.matches pattern_web s') as [|m ms] eqn:Hm; [done|]. exfalso.
  destruct (pattern_web_inv s' m) as (g1&g2&tail&->&_).
  { rewrite Hm. apply list_elem_of_here. }
  rewrite !count_char_app in Hs. simpl in Hs. lia.
Qed.

Lemma dotted_git_no_split r g2 tail :
  free_of "." r = false →
  r +:+ ".git" = g2 +:+ tail → free_of "." g2 = true →
  tail = "" ∨ tail = Py.nl ∨ tail = ".git" ∨ tail = ".git" +:+ Py.nl →
  False.
Proof.
  intros Hr Heq Hg2 [->|[->|[->| ->]]].
  - rewrite string_app_nil_r in Heq. subst g2.
    rewrite free_of_app, Hr in Hg2. done.
  - apply (f_equal (ends_with "010")) in Heq.
    by rewrite !ends_with_app in Heq.
  - apply string_app_inv_r in Heq as ->. congruence.
  - apply (f_equal (ends_with "010")) in Heq.
    by rewrite !ends_with_app in Heq.
Qed.

(** X16. The SSH form of a repository whose name holds a dot is rejected:
    the first pattern allows no dot in the name and the second wants a
    slash after the host. *)
Theorem ssh_url_dotted_repo_rejected o r :
  free_of "/" o = true → free_of "/" r = true → free_of "." r = false →
  _parse_github_url ("git@github.com:" +:+ o +:+ "/" +:+ r +:+ ".git")
  = inl (Py.ValueError invalid_url_message).
Proof.
  intros Hso Hsr Hdr. unfold _parse_github_url, first_match.
  rewrite <- (string_app_assoc "git@github.com:" o).
  rewrite search_ssh_None.
  - rewrite search_web_None; [done|].
    rewrite !count_char_app, (free_of_count _ _ Hso), (free_of_count _ _ Hsr).
    simpl. lia.
  - by rewrite free_of_app, Hsr.
  - intros g2 tail Heq _ Hg2 Ht.
    by apply (dotted_git_no_split r g2 tail).
Qed.

(** X17. The web form of a repository whose name holds a dot is left to the
    second pattern: the name is returned whole when it does not end in
    [.git] and holds no newline, and with [.git] appended the suffix is
    not removed but returned as part of the name. *)
Theorem web_url_dotted_repo o r :
  o ≠ "" → free_of "/" o = true →
  r ≠ "" → free_of "/" r = true → free_of "." r = false →
  (¬ ends_in ".git" r ∧ free_of "010" r = true →
   _parse_github_url ("https://github.com/" +:+ o +:+ "/" +:+ r) = inr [o; r])
  ∧ _parse_github_url ("https://github.com/" +:+ o +:+ "/" +:+ r +:+ ".git")
    = inr [o; r +:+ ".git"].
Proof.
  intros Ho Hso Hr Hsr Hdr.
  assert (∀ last, last ≠ "" → free_of "/" last = true →
    (∀ g2 tail, last = g2 +:+ tail → g2 ≠ "" → free_of "." g2 = true →
       tail = "" ∨ tail = Py.nl ∨ tail = ".git" ∨ tail = ".git" +:+ Py.nl →
       False) →
    _parse_github_url ("https://github.com/" +:+ o +:+ "/" +:+ last)
    = inr [o; last]) as Hweb.
  { intros last Hl Hsl Hno. unfold _parse_github_url, first_match.
    rewrite <- (string_app_assoc "https://github.com/" o).
    rewrite search_ssh_None by done.
    rewrite (string_app_assoc "https://github.com/" o).
    change ("https://github.com/" +:+ o +:+ "/" +:+ last)
      with ("https://" +:+ "github.com/" +:+ o +:+ "/" +:+ last).
    rewrite search_web_https. rewrite <- (string_app_nil_r last) at 1.
    by rewrite (search_head _ _ ([o; last], ""))
      by (by apply pattern_web_head; auto). }
  split.
  - intros [Hgit Hnl]. apply Hweb; [done..|].
    intros g2 tail -> _ Hg2 [->|[->|[->| ->]]].
    + rewrite string_app_nil_r in Hdr. congruence.
    + rewrite free_of_app in Hnl. by rewrite andb_false_r in Hnl.
    + apply Hgit. by exists g2.
    + rewrite free_of_app in Hnl. by rewrite andb_false_r in Hnl.
  - apply Hweb.
    + by destruct r.
    + by rewrite free_of_app, Hsr.
    + intros g2 tail Heq _ Hg2 Ht.
    by apply (dotted_git_no_split r g2 tail).
Qed.

End DottedNames.

(** ** The parser on concrete locators *)

Lemma parsed_url_shape_witness :
  _parse_github_url "git@github.com:crosscore/github-repo-analyzer.git"
  = inr ["crosscore"; "github-repo-analyzer"]
  ∧ ∃ pre c o r tail,
      ["crosscore"; "github-repo-analyzer"] = [o; r]
      ∧ "git@github.com:crosscore/github-repo-analyzer.git"
        = pre +:+ "github.com" +:+ String c (o +:+ "/" +:+ r +:+ tail)
      ∧ (c = ":"%char ∨ c = "/"%char)
      ∧ o ≠ "" ∧ free_of "/" o = true
      ∧ r ≠ "" ∧ free_of "/" r = true
      ∧ tail ∈ [""; Py.nl; ".git"; ".git" +:+ Py.nl; "/"; "/" +:+ Py.nl].
Proof.
  assert (_parse_github_url "git@github.com:crosscore/github-repo-analyzer.git"
    = inr ["crosscore"; "github-repo-analyzer"]) as H
    by (vm_compute; reflexivity).
  split; [exact H|]. exact (parsed_url_shape _ _ H).
Defined.

Lemma url_without_host_rejected_witness :
  occurs "github.com" "https://gitlab.com/o/r" = false
  ∧ init "t" "https://gitlab.com/o/r"
    = inl (Py.ValueError invalid_url_message).
Proof.
  split; [vm_compute; reflexivity|].
  apply (url_without_host_rejected "t" "https://gitlab.com/o/r").
  vm_compute; reflexivity.
Defined.

Lemma parse_accepts_documented_forms_witness :
  _parse_github_url "https://github.com/crosscore/github-repo-analyzer"
  = inr ["crosscore"; "github-repo-analyzer"]
  ∧ _parse_github_url "git@github.com:crosscore/github-repo-analyzer.git"
    = inr ["crosscore"; "github-repo-analyzer"].
Proof.
  destruct (parse_accepts_documented_forms "crosscore" "github-repo-analyzer")
    as (Hweb&_&Hssh&_); [discriminate|reflexivity|discriminate|
                          reflexivity|reflexivity|].
  by split.
Defined.

Lemma parse_trailing_slash_keeps_name_witness :
  _parse_github_url "https://github.com/o/my.repo.git/"
  = inr ["o"; "my.repo.git"].
Proof.
  apply (parse_trailing_slash_keeps_name "o" "my.repo.git");
    discriminate || reflexivity.
Defined.

Lemma ssh_url_dotted_repo_rejected_witness :
  _parse_github_url "git@github.com:o/my.repo.git"
  = inl (Py.ValueError invalid_url_message).
Proof.
  apply (ssh_url_dotted_repo_rejected "o" "my.repo"); reflexivity.
Defined.

Lemma web_url_dotted_repo_witness :
  _parse_github_url "https://github.com/o/my.repo" = inr ["o"; "my.repo"]
  ∧ _parse_github_url "https://github.com/o/my.repo.git"
    = inr ["o"; "my.repo.git"].
Proof.
  destruct (web_url_dotted_repo "o" "my.repo") as [Hplain Hgit];
    [discriminate|reflexivity|discriminate|reflexivity|reflexivity|].
  split; [|exact Hgit]. apply Hplain. split; [|reflexivity].
  intros [x Hx]. apply (f_equal (ends_with "t")) in Hx.
  rewrite ends_with_app in Hx; discriminate.
Defined.

(** ** The document *)

Section Document.

Lemma fold_sections f (contents : Py.dict) :
  fold_left
    (λ f (kv : string * string),
       let f := write ("## " +:+ kv.1 +:+ Py.nl +:+ Py.nl) f in
       let f := write ("```" +:+ Py.nl) f in
       let f := write kv.2 f in
       write (Py.nl +:+ "```" +:+ Py.nl +:+ Py.nl) f)
    contents f
  = f +:+ concat_texts (file_section <$> contents).
Proof.
  revert f. induction contents as [|kv contents IH]; intros f; simpl.
  - by rewrite string_app_nil_r.
  - rewrite IH. unfold write, file_section, fenced.
    by rewrite !string_app_assoc.
Qed.

Lemma save_analysis_eq_document structure contents :
  save_analysis structure contents = document structure contents.
Proof.
  unfold save_analysis, document, fenced. rewrite fold_sections.
  unfold write. by rewrite !string_app_assoc.
Qed.

(** X18. The sequence of writes produces the document as laid out: the first
    heading, the tree lines joined by newlines in one fenced block, the
    second heading, then one section per key in the order of the content
    index; a pair added at the end of the index adds its section at the
    end of the text and changes nothing before it. *)
Theorem save_analysis_document structure contents :
  save_analysis structure contents = document structure contents
  ∧ ∀ path text,
      save_analysis structure (contents ++ [(path, text)])
      = save_analysis structure contents +:+ file_section (path, text).
Proof.
  pose proof (save_analysis_eq_document structure) as Hdoc.
  split; [done|]. intros path text. rewrite !Hdoc. unfold document.
  rewrite fmap_app. simpl.
  assert (∀ l x, concat_texts (l ++ [x]) = concat_texts l +:+ x) as Hsnoc.
  { intros l x. induction l as [|y l IH]; simpl.
    - by rewrite string_app_nil_r.
    - by rewrite IH, string_app_assoc. }
  rewrite Hsnoc. by rewrite !string_app_assoc.
Qed.

End Document.

(** ** Runs of [main] *)

Section MainFacts.
Context (api : remote) (b64 : string → option string) (str : Py.exn → string).
Context (int : string → option Z) (strip : string → string).
Context (md_path : string → string) (abspath : string → string).
Context (fuel : nat).

Local Abbreviation choose_url := (choose_url int strip).
Local Abbreviation analyze_and_save :=
  (analyze_and_save api b64 str md_path abspath fuel).
Local Abbreviation main := (main api b64 str int strip md_path abspath fuel).

Lemma console_imap (f : nat → string → event) l :
  (∀ i x, is_console (f i x) = true) →
  Forall (λ ev, is_console ev = true) (imap f l).
Proof.
  revert f. induction l as [|x l IH]; intros f Hf; simpl; [done|].
  constructor; [done|]. apply IH. intros i y. apply Hf.
Qed.

Lemma choose_url_console repos answer1 answer2 :
  Forall (λ ev, is_console ev = true) (choose_url repos answer1 answer2).1.
Proof.
  assert (Forall (λ ev, is_console ev = true)
    (menu repos ++ [Input "Please select a number: "])) as Hmenu.
  { unfold menu. apply Forall_app_2; [|by repeat constructor].
    apply Forall_cons_2; [done|].
    apply Forall_app_2; [by apply console_imap|by repeat constructor]. }
  unfold choose_url. destruct repos as [|r0 repos]; [by repeat constructor|].
  cbv zeta. destruct (int _) as [n|]; [|exact Hmenu].
  destruct (n =? 0)%Z;
    [apply Forall_app_2; [exact Hmenu|by repeat constructor]|].
  destruct (_ && _); [exact Hmenu|].
  apply Forall_app_2; [exact Hmenu|by repeat constructor].
Qed.

Lemma filter_console (P : event → Prop) `{∀ ev, Decision (P ev)} log :
  (∀ ev, P ev → is_console ev = false) →
  Forall (λ ev, is_console ev = true) log → filter P log = [].
Proof.
  intros HP. induction 1 as [|ev log Hev _ IH]; [done|].
  rewrite filter_cons, IH. destruct (decide (P ev)) as [Hp|]; [|done].
  apply HP in Hp. congruence.
Qed.

Lemma analyze_and_save_cases token repo_url :
  (∃ e, init token repo_url = inl e
     ∧ analyze_and_save token repo_url = ([], Propagates e))
  ∨ ∃ self cache, init token repo_url = inr (self, cache) ∧
      match analyze_repo api b64 str self fuel cache [] with
      | Done st =>
          analyze_and_save token repo_url
          = ([SaveAnalysis (md_path (repo self +:+ ".md"))
                (save_analysis (structure st) (contents st));
              Print (Py.nl +:+ "Analysis completed successfully. "
                     +:+ "Results saved to:" +:+ Py.nl
                     +:+ abspath (md_path (repo self +:+ ".md")))],
             Returns)
      | Raised e _ =>
          analyze_and_save token repo_url
          = ([Print ("Error: " +:+ str e)], Returns)
      | OutOfFuel => analyze_and_save token repo_url = ([], Unfinished)
      end.
Proof.
  unfold analyze_and_save.
  destruct (init token repo_url) as [e|[self cache]]; [left; eauto|right].
  exists self, cache. split; [done|].
  by destruct (analyze_repo _ _ _ _ _ _ _).
Qed.

(** The shapes of a run of [main] that gets a token. *)
Lemma main_cases token repos answer1 answer2 :
  token ≠ "" →
  let chosen := choose_url repos answer1 answer2 in
  match chosen.2 with
  | None => main (Some token) repos answer1 answer2 = (chosen.1, Returns)
  | Some repo_url =>
      if String.eqb repo_url "" then
        main (Some token) repos answer1 answer2
        = (chosen.1 ++ [Print "Repository URL was not entered."], Returns)
      else
        main (Some token) repos answer1 answer2
        = (chosen.1 ++ remember repo_url repos
             ++ (analyze_and_save token repo_url).1,
           (analyze_and_save token repo_url).2)
  end.
Proof.
  intros Htoken chosen. unfold main. destruct token as [|c token]; [done|].
  fold chosen. destruct chosen as [log [url|]]; simpl; [|done].
  destruct url as [|d url]; simpl; [done|].
  by destruct (analyze_and_save _ _).
Qed.

(** X19. Whatever is typed, [main] saves the history at most once, and then
    it saves the loaded list with the chosen locator added at its end: the
    locator is not empty and was not in the list, so a list without
    duplicates stays without duplicates. *)
Theorem history_saved_once_without_duplicate
    token repos answer1 answer2 log ended :
  main token repos answer1 answer2 = (log, ended) →
  filter (λ ev, is_save_repos ev = true) log = []
  ∨ ∃ repo_url,
      filter (λ ev, is_save_repos ev = true) log
      = [SaveRepos (repos ++ [repo_url])]
      ∧ repo_url ≠ "" ∧ (repo_url ∉ repos)
      ∧ (NoDup repos → NoDup (repos ++ [repo_url])).
Proof.
  assert (∀ l, Forall (λ ev, is_console ev = true) l →
    filter (λ ev, is_save_repos ev = true) l = []) as Hquiet.
  { intros l. apply filter_console. by intros []. }
  destruct token as [token|]; [|intros [= <- <-]; by left].
  destruct (decide (token = "")) as [->|Htoken]; [intros [= <- <-]; by left|].
  pose proof (main_cases token repos answer1 answer2 Htoken) as Hmain.
  pose proof (choose_url_console repos answer1 answer2) as Hlog.
  cbv zeta in Hmain.
  destruct (choose_url repos answer1 answer2) as [log0 [picked|]];
    cbn [fst snd] in Hmain, Hlog.
  - destruct (String.eqb_spec picked "") as [_|Hurl]; rewrite Hmain.
    { intros [= <- <-]. left. rewrite filter_app, Hquiet by done. done. }
    intros [= <- <-]. rewrite !filter_app, Hquiet by done.
    assert (filter (λ ev, is_save_repos ev = true)
      (analyze_and_save token picked).1 = []) as ->.
    { destruct (analyze_and_save_cases token picked)
        as [(e&_&->)|(self&cache&_&H)]; [done|].
      destruct (analyze_repo _ _ _ _ _ _ _); by rewrite H. }
    unfold remember. case_bool_decide as Hin; [by left|right].
    exists picked. split_and!; try done.
    intros Hnd. apply NoDup_app. split_and!; [done| |apply NoDup_singleton].
    intros x Hx ->%list_elem_of_singleton. done.
  - rewrite Hmain. intros [= <- <-]. left. by apply Hquiet.
Qed.

(** X20. Choosing the number of a saved locator selects that locator, asks no
    second question and writes no history: after the menu and the prompt
    [main] goes straight to the analysis of the locator, or returns with
    the message for an empty one. *)
Theorem saved_choice_is_not_saved_again token repos answer1 answer2 n :
  token ≠ "" → int (strip answer1) = Some n →
  (1 ≤ n ≤ Z.of_nat (length repos))%Z →
  ∃ repo_url,
    repos !! Z.to_nat (n - 1) = Some repo_url
    ∧ main (Some token) repos answer1 answer2
      = if String.eqb repo_url "" then
          (menu repos
             ++ [Input "Please select a number: ";
                 Print "Repository URL was not entered."], Returns)
        else
          (menu repos ++ Input "Please select a number: "
             :: (analyze_and_save token repo_url).1,
           (analyze_and_save token repo_url).2).
Proof.
  intros Htoken Hint Hn.
  destruct (lookup_lt_is_Some_2 repos (Z.to_nat (n - 1))) as [picked Hurl];
    [lia|].
  exists picked. split; [done|].
  pose proof (main_cases token repos answer1 answer2 Htoken) as Hmain.
  assert (choose_url repos answer1 answer2
    = (menu repos ++ [Input "Please select a number: "], Some picked)) as Hch.
  { unfold choose_url. destruct repos as [|r0 repos]; [simpl in Hn; lia|].
    rewrite Hint.
    destruct (Z.eqb_spec n 0); [lia|].
    destruct (Z.leb_spec 1 n); [|lia].
    destruct (Z.leb_spec n (Z.of_nat (length (r0 :: repos)))); [|lia].
    simpl. do 2 f_equal. by apply nth_lookup_Some with (d := "") in Hurl. }
  cbv zeta in Hmain. rewrite Hch in Hmain. cbn [fst snd] in Hmain.
  destruct (String.eqb picked "") eqn:Hempty; rewrite Hmain.
  - by rewrite <- app_assoc.
  - unfold remember. rewrite bool_decide_eq_true_2
      by (by eapply list_elem_of_lookup_2).
    by rewrite <- app_assoc.
Qed.

(** X21. The history is saved before the locator is parsed: a new locator in
    which [github.com] does not occur is added to the saved list, and then
    the constructor's [ValueError] leaves [main], outside the [try]. *)
Theorem invalid_url_is_saved_then_raises
    token repos answer1 answer2 log repo_url :
  token ≠ "" →
  choose_url repos answer1 answer2 = (log, Some repo_url) →
  repo_url ≠ "" → repo_url ∉ repos →
  occurs "github.com" repo_url = false →
  main (Some token) repos answer1 answer2
  = (log ++ [SaveRepos (repos ++ [repo_url])],
     Propagates (Py.ValueError invalid_url_message)).
Proof.
  intros Htoken Hch Hurl Hnew Hocc.
  pose proof (main_cases token repos answer1 answer2 Htoken) as Hmain.
  cbv zeta in Hmain. rewrite Hch in Hmain. cbn [fst snd] in Hmain.
  apply String.eqb_neq in Hurl. rewrite Hurl in Hmain. rewrite Hmain.
  assert (init token repo_url = inl (Py.ValueError invalid_url_message))
    as Hinit.
  { unfold init, _parse_github_url.
    destruct (first_match _ repo_url) as [g|] eqn:Hg; [|done].
    apply first_match_inv in Hg as (pre&c&o&r&tail&_&->&_).
    by rewrite occurs_app in Hocc. }
  destruct (analyze_and_save_cases token repo_url)
    as [(e&He&->)|(self&cache&He&_)]; [|congruence].
  simpl. unfold remember. rewrite bool_decide_eq_false_2 by done.
  rewrite app_nil_r. congruence.
Qed.



End MainFacts.

(** ** [main] on the demo repository *)

Lemma history_saved_once_without_duplicate_witness :
  demo_main demo_api ["https://github.com/o/r"] "https://gitlab.com/o/r" ""
  = ([Print "Saved GitHub repository URLs:";
      Print "1. https://github.com/o/r";
      Print "0. Enter a new repository URL";
      Input "Please select a number: ";
      SaveRepos ["https://github.com/o/r"; "https://gitlab.com/o/r"]],
     Propagates (Py.ValueError invalid_url_message))
  ∧ (filter (λ ev, is_save_repos ev = true)
       (demo_main demo_api ["https://github.com/o/r"]
          "https://gitlab.com/o/r" "").1 = []
     ∨ ∃ repo_url,
         filter (λ ev, is_save_repos ev = true)
           (demo_main demo_api ["https://github.com/o/r"]
              "https://gitlab.com/o/r" "").1
         = [SaveRepos (["https://github.com/o/r"] ++ [repo_url])]
         ∧ repo_url ≠ "" ∧ (repo_url ∉ ["https://github.com/o/r"])
         ∧ (NoDup ["https://github.com/o/r"] →
            NoDup (["https://github.com/o/r"] ++ [repo_url]))).
Proof.
  split; [vm_compute; reflexivity|].
  apply (history_saved_once_without_duplicate demo_api demo_b64 demo_str
    demo_int demo_strip demo_md_path demo_abspath 2 (Some "t")
    ["https://github.com/o/r"] "https://gitlab.com/o/r" "" _
    (Propagates (Py.ValueError invalid_url_message))).
  vm_compute; reflexivity.
Defined.

Lemma saved_choice_is_not_saved_again_witness :
  ∃ repo_url,
    ["https://github.com/o/r"] !! Z.to_nat (1 - 1) = Some repo_url
    ∧ demo_main demo_api ["https://github.com/o/r"] "1" ""
      = if String.eqb repo_url "" then
          (menu ["https://github.com/o/r"]
             ++ [Input "Please select a number: ";
                 Print "Repository URL was not entered."], Returns)
        else
          (menu ["https://github.com/o/r"] ++ Input "Please select a number: "
             :: (analyze_and_save demo_api demo_b64 demo_str demo_md_path
                   demo_abspath 2 "t" repo_url).1,
           (analyze_and_save demo_api demo_b64 demo_str demo_md_path
              demo_abspath 2 "t" repo_url).2).
Proof.
  apply (saved_choice_is_not_saved_again demo_api demo_b64 demo_str demo_int
    demo_strip demo_md_path demo_abspath 2 "t" ["https://github.com/o/r"]
    "1" "" 1).
  - discriminate.
  - reflexivity.
  - simpl. lia.
Defined.

Lemma invalid_url_is_saved_then_raises_witness :
  demo_main demo_api [] "https://gitlab.com/o/r" ""
  = ([Input "Enter GitHub repository URL: "]
       ++ [SaveRepos ([] ++ ["https://gitlab.com/o/r"])],
     Propagates (Py.ValueError invalid_url_message)).
Proof.
  apply (invalid_url_is_saved_then_raises demo_api demo_b64 demo_str demo_int
    demo_strip demo_md_path demo_abspath 2 "t" [] "https://gitlab.com/o/r" "").
  - discriminate.
  - reflexivity.
  - discriminate.
  - apply not_elem_of_nil.
  - vm_compute; reflexivity.
Defined.



(** ** The recursion budget *)

Section Fuel.
Context (api : remote) (b64 : string → option string) (str : Py.exn → string).
Context (self : analyzer).

Local Abbreviation process_entry := (process_entry api b64 str).
Local Abbreviation process_entries := (process_entries api b64 str).
Local Abbreviation process_path := (process_path api b64 str self).



End Fuel.

